(** * econ_python: the two-state Markov chain simulators and the
      Gram-Schmidt projection routine

    The notebooks [markov_chains1.ipynb] and the linear-algebra notebook
    define four small numerical functions: [markov1], [markov],
    [markov_cython] and [gram_schmidt], plus the two projections [Py1] and
    [Py2]; [speed.ipynb] adds a grid search, the logistic map and a
    geometric sum.  They are embedded here over exact arithmetic: a float
    is an element of an ordered field (a real closed field where [np.sqrt]
    is needed), without rounding; the division of floats keeps its IEEE
    results at a zero divisor, numpy arrays are sequences and matrices, and
    a Python exception is a value of the error monad [Py.result].  Where a
    statement depends on a float that is not a number ([nan], an infinity,
    an overflow) the floats are modelled with these values. *)

From HB Require Import structures.
From mathcomp Require Import boot order algebra.
From mathcomp Require Import algC.

Set Implicit Arguments.
Unset Strict Implicit.
Unset Printing Implicit Defensive.

Import Order.TTheory GRing.Theory Num.Theory.
Local Open Scope ring_scope.

(** * Part I: the embedding *)

(** ** The Python runtime: exceptions, indexing, loops *)

Module Py.

(** The exceptions the modelled code can raise. *)
Variant exn : Set := ValueError | IndexError | LinAlgError | OverflowError.

Variant result (T : Type) : Type := Ok of T | Raise of exn.
Arguments Raise {T} e.

Definition bind (T U : Type) (c : result T) (k : T -> result U) : result U :=
  match c with Ok v => k v | Raise e => Raise e end.

Definition returned (T : Type) (c : result T) : bool :=
  if c is Ok _ then true else false.

(** [s[i]] for a non-negative [i]: out of range raises [IndexError]. *)
Definition getitem (T : Type) (s : seq T) (i : nat) : result T :=
  if drop i s is v :: _ then Ok v else Raise IndexError.

(** [s[i] = v] for a non-negative [i]: the cell is overwritten in place,
    out of range raises [IndexError] (nothing is appended). *)
Definition setitem (T : Type) (s : seq T) (i : nat) (v : T) : result (seq T) :=
  if (i < size s)%N then Ok (take i s ++ v :: drop i.+1 s) else Raise IndexError.

(** [np.empty(n)]: [n] cells holding whatever the memory held ([junk]);
    a negative size raises [ValueError]. *)
Definition np_empty (T : Type) (junk : nat -> T) (n : int) : result (seq T) :=
  if n is Posz m then Ok (mkseq junk m) else Raise ValueError.

(** The number of passes of [i = 0; while i < n - 1: ...; i += 1]. *)
Definition trips (n : int) : nat := if (n - 1)%R is Posz m then m else 0%N.

(** The loop [while i < n - 1: s = body(i, s); i += 1], started at counter
    [i] with [todo] passes left; an exception in the body leaves the loop. *)
Fixpoint while_lt (S : Type) (body : nat -> S -> result S)
    (todo i : nat) (s : S) : result S :=
  if todo is t.+1 then bind (body i s) (while_lt body t i.+1) else Ok s.

(** A comparison stored in a numeric array: [True] is 1, [False] is 0. *)
Definition of_bool (T : nzRingType) (b : bool) : T := if b then 1 else 0.
Arguments of_bool {T} b.

(** The loop [for i in r: s = body(i, s)]; an exception leaves the loop. *)
Fixpoint for_in (I S : Type) (body : I -> S -> result S) (r : seq I) (s : S) :
    result S :=
  if r is i :: r' then bind (body i s) (for_in body r') else Ok s.

End Py.

Import Py.

Notation "x <- c ;; k" := (Py.bind c (fun x => k))
  (at level 100, c at next level, right associativity, only parsing).

(** ** The loop in closed form *)

(** [chain next todo i cur]: the state [cur] of position [i] followed by the
    [todo] states that [next] derives from it, one per pass. *)
Fixpoint chain (T : Type) (next : nat -> T -> T) (todo i : nat) (cur : T) :
    seq T :=
  cur :: (if todo is t.+1 then chain next t i.+1 (next i cur) else [::]).

(** ** The state-sequence generators of markov_chains1.ipynb *)

Section MarkovDefs.

(** Floats that are numbers, with exact arithmetic and the usual order;
    the parameters [h_h] and [l_l] that are [nan] or an infinity are the
    matter of [AnyFloat] below. *)
Variable R : realFieldType.

(** What [np.empty] finds in memory. *)
Variable junk : nat -> R.
Variable junkz : nat -> int.

(** The largest C [int] of the platform. *)
Variable int_max : nat.

(** The random source: [rng i] is the [i]-th number it hands out, the
    [random_sample] that [np.random.uniform] rescales. *)
Variable rng : nat -> R.

(** [np.random.uniform(low, high, size = n)] *)
Definition np_random_uniform (low high : R) (n : int) : result (seq R) :=
  if n is Posz m then Ok (mkseq (fun i => low + (high - low) * rng i) m)
  else Raise ValueError.

(** The body of the main loop of [markov1], at counter [i]. *)
Definition markov1_body (states : seq R) (h_h l_l : R) (x : seq R)
    (i : nat) (seq_states : seq R) : result (seq R) :=
  cur <- getitem seq_states i ;;
  if cur == 1 then
    xi <- getitem x i ;;
    if xi <= h_h then
      v <- getitem states 0 ;; setitem seq_states i.+1 v
    else
      v <- getitem states 1 ;; setitem seq_states i.+1 v
  else
    xi <- getitem x i ;;
    if xi <= l_l then
      v <- getitem states 1 ;; setitem seq_states i.+1 v
    else
      v <- getitem states 0 ;; setitem seq_states i.+1 v.

(** [markov1(n, h_h, l_l)], the first version. *)
Definition markov1 (n : int) (h_h l_l : R) : result (seq R) :=
  let states := [:: 1; 0] in
  init_state <- getitem states 0 ;;
  seq_states <- np_empty junk n ;;
  seq_states <- setitem seq_states 0 init_state ;;
  x <- np_random_uniform 0 1 n ;;
  while_lt (markov1_body states h_h l_l x) (trips n) 0%N seq_states.

(** The body of the main loop of [markov]: the comparison itself is stored. *)
Definition markov_body (h_h l_l : R) (x : seq R)
    (i : nat) (seq_states : seq R) : result (seq R) :=
  cur <- getitem seq_states i ;;
  if cur == 1 then
    xi <- getitem x i ;; setitem seq_states i.+1 (of_bool (xi < h_h))
  else
    xi <- getitem x i ;; setitem seq_states i.+1 (of_bool (xi > l_l)).

(** [markov(n, h_h, l_l)], the version the notebook times. *)
Definition markov (n : int) (h_h l_l : R) : result (seq R) :=
  let init_state := 1 in
  seq_states <- np_empty junk n ;;
  seq_states <- setitem seq_states 0 init_state ;;
  x <- np_random_uniform 0 1 n ;;
  while_lt (markov_body h_h l_l x) (trips n) 0%N seq_states.

(** A Python integer passed for a C [int] parameter: a value the type
    cannot hold raises [OverflowError]. *)
Definition c_int (n : int) : result int :=
  if (- (int_max%:Z + 1) <= n) && (n <= int_max%:Z) then Ok n
  else Raise OverflowError.

(** The body of the main loop of [markov_cython], on an array of integers. *)
Definition markov_cython_body (h_h l_l : R) (x : seq R)
    (i : nat) (states : seq int) : result (seq int) :=
  cur <- getitem states i ;;
  if cur == 1 then
    xi <- getitem x i ;; setitem states i.+1 (of_bool (xi < h_h))
  else
    xi <- getitem x i ;; setitem states i.+1 (of_bool (xi > l_l)).

(** [markov_cython(int n, double h_h, double l_l)]: the array is allocated
    and the draws are taken before the initial state is stored. *)
Definition markov_cython (n : int) (h_h l_l : R) : result (seq int) :=
  n <- c_int n ;;
  states <- np_empty junkz n ;;
  x <- np_random_uniform 0 1 n ;;
  states <- setitem states 0 1 ;;
  while_lt (markov_cython_body h_h l_l x) (trips n) 0%N states.

(** Whether one pass of a loop body, started in state 0 with the draw [r],
    stores state 1. *)
Definition moves_up (body : seq R -> nat -> seq R -> result (seq R)) (r : R) :
    bool :=
  if body [:: r] 0%N [:: 0; 0] is Ok [:: _; v] then v == 1 else false.

(** The share of the [N] equally spaced draws [0, 1/N, ..., (N-1)/N] of
    [[0,1)] on which [ev] holds. *)
Definition frequency (N : nat) (ev : R -> bool) : R :=
  (count (fun k : nat => ev (k%:R / N%:R)) (iota 0 N))%:R / N%:R.

(** The transition rule in the specification's words: from state 1 the
    next state is 1 when [r < h_h] and 0 otherwise; from state 0 the next
    state is 0 when [r > l_l] and 1 otherwise ([x i] is the draw of pass
    [i], [s] the sequence). *)
Definition spec_step_rule (h_h l_l : R) (n : int) (x : nat -> R)
    (s : seq R) : Prop :=
  nth 0 s 0 = 1 /\
  forall i : nat, i%:Z < n - 1 ->
    (nth 0 s i = 1 -> nth 0 s i.+1 = if x i < h_h then 1 else 0) /\
    (nth 0 s i = 0 -> nth 0 s i.+1 = if x i > l_l then 0 else 1).

(** The rule [markov] follows: from state 0 the next state is 1 when
    [r > l_l] and 0 otherwise. *)
Definition markov_step_rule (h_h l_l : R) (n : int) (x : nat -> R)
    (s : seq R) : Prop :=
  nth 0 s 0 = 1 /\
  forall i : nat, i%:Z < n - 1 ->
    (nth 0 s i = 1 -> nth 0 s i.+1 = if x i < h_h then 1 else 0) /\
    (nth 0 s i = 0 -> nth 0 s i.+1 = if x i > l_l then 1 else 0).

(** The rule [markov1] follows: as [markov], with [r <= h_h] from state 1. *)
Definition markov1_step_rule (h_h l_l : R) (n : int) (x : nat -> R)
    (s : seq R) : Prop :=
  nth 0 s 0 = 1 /\
  forall i : nat, i%:Z < n - 1 ->
    (nth 0 s i = 1 -> nth 0 s i.+1 = if x i <= h_h then 1 else 0) /\
    (nth 0 s i = 0 -> nth 0 s i.+1 = if x i > l_l then 1 else 0).

(** A call the specification wants rejected: a probability outside [0,1]
    or a length below 1. *)
Definition invalid_parameter (n : int) (h_h l_l : R) : bool :=
  [|| n < 1, ~~ (0 <= h_h <= 1) | ~~ (0 <= l_l <= 1)].

(** One transition of [markov] and [markov_cython] at pass [i]. *)
Definition markov_next (T : nzRingType) (h_h l_l : R) (i : nat) (cur : T) : T :=
  if cur == 1 then of_bool (rng i < h_h) else of_bool (rng i > l_l).

(** One transition of [markov1] at pass [i]. *)
Definition markov1_next (h_h l_l : R) (i : nat) (cur : R) : R :=
  if cur == 1 then (if rng i <= h_h then 1 else 0)
  else (if rng i <= l_l then 0 else 1).

Definition binary (T : nzRingType) (v : T) : bool := (v == 0) || (v == 1).

End MarkovDefs.

(** *** Concrete inputs

    Rational parameters, a stream whose every draw is 1/2, and a memory
    full of zeros. *)
Definition half : rat := 1 / 2%:R.
Definition const_half (i : nat) : rat := half.
Definition zeros (i : nat) : rat := 0.

Definition zerosz (i : nat) : int := 0.

(** A stream that leaves [const_half] at position 2 only. *)
Definition half_then_zero (i : nat) : rat := if i == 2%N then 0 else half.

(** The smallest [INT_MAX] the C standard allows. *)
Definition int_max16 : nat := (2 ^ 15 - 1)%N.

(** ** The Gram-Schmidt routine of the linear-algebra notebook *)

Section GramSchmidtDefs.

(** Floats with exact arithmetic, closed under [np.sqrt] of a non-negative
    number. *)
Variable R : rcfType.

(** What a float operation can give besides a number. *)
Variant float : Type := Fin of R | PInf | NInf | NaN.

(** [x / d] on numbers: a zero divisor gives [nan] for [0 / 0] and an
    infinity of the sign of [x] otherwise (numpy warns and goes on). *)
Definition fdiv (x d : R) : float :=
  if d != 0 then Fin (x / d)
  else if x == 0 then NaN else if 0 < x then PInf else NInf.

Definition fadd (a b : float) : float :=
  match a, b with
  | Fin x, Fin y => Fin (x + y)
  | NaN, _ | _, NaN => NaN
  | PInf, NInf | NInf, PInf => NaN
  | PInf, _ | _, PInf => PInf
  | NInf, _ | _, NInf => NInf
  end.

Definition fmul (a b : float) : float :=
  let inf (neg : bool) := if neg then NInf else PInf in
  match a, b with
  | Fin x, Fin y => Fin (x * y)
  | NaN, _ | _, NaN => NaN
  | Fin x, PInf | PInf, Fin x => if x == 0 then NaN else inf (x < 0)
  | Fin x, NInf | NInf, Fin x => if x == 0 then NaN else inf (0 < x)
  | PInf, PInf | NInf, NInf => PInf
  | PInf, NInf | NInf, PInf => NInf
  end.

(** [A @ B] on arrays of floats. *)
Definition fmatmul (m n p : nat) (A : 'M[float]_(m, n)) (B : 'M[float]_(n, p)) :
    'M[float]_(m, p) :=
  \matrix_(i, l) \big[fadd/Fin 0]_(j < n) fmul (A i j) (B j l).

(** What [np.empty((n, k))] finds in memory. *)
Variable junk : nat -> nat -> float.

Definition np_empty2 (n k : nat) : 'M[float]_(n, k) := \matrix_(i, j) junk i j.

(** [np.linalg.inv(A)] over exact arithmetic: a singular matrix raises
    [LinAlgError]. (In floating point the error comes with an exactly zero
    pivot of the rounded factorization only.) *)
Definition np_linalg_inv (m : nat) (A : 'M[R]_m) : result 'M[R]_m :=
  if A \in unitmx then Ok (invmx A) else Raise LinAlgError.

(** [np.sqrt(np.sum(v**2))] *)
Definition norm2 (n : nat) (v : 'cV[R]_n) : R :=
  Num.sqrt (\sum_r v r 0 ^+ 2).

(** [v / np.sqrt(np.sum(v**2))] over exact arithmetic; a zero norm gives
    the IEEE results of [fdiv]. *)
Definition normalize (n : nat) (v : 'cV[R]_n) : 'cV[float]_n :=
  let d := norm2 v in \col_r fdiv (v r 0) d.

(** [U[:, i] = v] *)
Definition set_col (n k : nat) (U : 'M[float]_(n, k)) (i : 'I_k)
    (v : 'cV[float]_n) : 'M[float]_(n, k) :=
  \matrix_(r, c) if c == i then v r 0 else U r c.

(** [X[:, 0:i]] *)
Definition prefix (n k : nat) (X : 'M[R]_(n, k)) (i : 'I_k) : 'M[R]_(n, i) :=
  colsub (widen_ord (ltnW (ltn_ord i))) X.

(** The body of the loop of [gram_schmidt]. *)
Definition gram_schmidt_body (n k : nat) (X : 'M[R]_(n, k)) (i : 'I_k)
    (U : 'M[float]_(n, k)) : result 'M[float]_(n, k) :=
  let x := col i X in
  let Z := prefix X i in
  G <- np_linalg_inv (Z^T *m Z) ;;
  let M := 1%:M - Z *m G *m Z^T in
  let u := M *m x in
  Ok (set_col U i (normalize u)).

(** [gram_schmidt(X)]: [X[:, 0]] needs a column 0, and the loop runs over
    the columns [range(1, k)]. *)
Definition gram_schmidt (n k : nat) (X : 'M[R]_(n, k)) :
    result 'M[float]_(n, k) :=
  let U := np_empty2 n k in
  if (insub 0%N : option 'I_k) is Some i0 then
    let v1 := col i0 X in
    let U := set_col U i0 (normalize v1) in
    let range_1_k := filter (fun i : 'I_k => (1 <= i)%N) (enum 'I_k) in
    for_in (gram_schmidt_body X) range_1_k U
  else Raise IndexError.

(** [Py1 = X @ np.linalg.inv(X.T @ X) @ X.T @ y], over exact arithmetic *)
Definition Py1 (n k : nat) (X : 'M[R]_(n, k)) (y : 'cV[R]_n) :
    result 'cV[R]_n :=
  G <- np_linalg_inv (X^T *m X) ;;
  Ok (X *m G *m X^T *m y).

(** [U = gram_schmidt(X); Py2 = U @ U.T @ y] *)
Definition Py2 (n k : nat) (X : 'M[R]_(n, k)) (y : 'cV[R]_n) :
    result 'cV[float]_n :=
  U <- gram_schmidt X ;;
  Ok (fmatmul (fmatmul U U^T) (map_mx Fin y)).

(** The columns of [X] are linearly independent. *)
Definition independent_columns (n k : nat) (X : 'M[R]_(n, k)) : Prop :=
  forall c : 'cV[R]_k, X *m c = 0 -> c = 0.

Section Vectors.

Variable n : nat.

(** The inner product of two columns. *)
Definition dot (u v : 'cV[R]_n) : R := \sum_r u r 0 * v r 0.

End Vectors.

Section Residuals.

Variables (n k : nat) (X : 'M[R]_(n, k)).
Implicit Types i j : 'I_k.

(** The selection of the first [i] coordinates, as a matrix. *)
Definition sel i : 'M[R]_(k, i) :=
  \matrix_(a, c) (a == widen_ord (ltnW (ltn_ord i)) c)%:R.

(** The residual of column [i]: what the loop body normalizes. *)
Definition gs_resid i : 'cV[R]_n :=
  let Z := prefix X i in
  (1%:M - Z *m invmx (Z^T *m Z) *m Z^T) *m col i X.

(** Its coordinates on the columns of [X]. *)
Definition gs_coef i : 'cV[R]_k :=
  let Z := prefix X i in
  delta_mx i 0 - sel i *m (invmx (Z^T *m Z) *m (Z^T *m col i X)).

(** The columns [gram_schmidt] stores when no inverse fails. *)
Definition gs_columns : 'M[float]_(n, k) :=
  \matrix_(r, i) normalize (gs_resid i) r 0.

(** [np.linalg.inv] accepts the Gram matrix of pass [i]. *)
Definition gram_ok i : bool :=
  let Z := prefix X i in Z^T *m Z \in unitmx.

(** The normalized residuals, as numbers. *)
Definition gs_basis : 'M[R]_(n, k) :=
  \matrix_(r, i) (gs_resid i r 0 / norm2 (gs_resid i)).

(** Their coordinates on the columns of [X]. *)
Definition gs_change : 'M[R]_k :=
  \matrix_(a, i) (gs_coef i a 0 / norm2 (gs_resid i)).

End Residuals.

(** *** The notebook's example *)

(** A matrix given by its rows. *)
Definition of_rows (n k : nat) (rows : seq (seq R)) : 'M[R]_(n, k) :=
  \matrix_(i, j) nth 0 (nth [::] rows i) j.

(** A decimal number given by its digits, the first before the point. *)
Fixpoint dec (digits : seq nat) : R :=
  if digits is d :: ds then d%:R + dec ds / 10%:R else 0.

Definition X0 : 'M[R]_(3, 2) :=
  of_rows 3 2 [:: [:: 1; 0]; [:: 0; - 6%:R]; [:: 2%:R; 2%:R]].

Definition y0 : 'cV[R]_3 := of_rows 3 1 [:: [:: 1]; [:: 3%:R]; [:: - 3%:R]].

(** The projection of [y0], exactly. *)
Definition p0 : 'cV[R]_3 :=
  of_rows 3 1 [:: [:: - 13%:R / 23%:R]; [:: 75%:R / 23%:R];
                  [:: - 51%:R / 23%:R]].

(** The projection of [y0] as the notebook prints it, to four places. *)
Definition p0_printed : 'cV[R]_3 :=
  of_rows 3 1 [:: [:: - dec [:: 0; 5; 6; 5; 2]%N];
                  [:: dec [:: 3; 2; 6; 0; 9]%N];
                  [:: - dec [:: 2; 2; 1; 7; 4]%N]].

(** A matrix whose second column repeats the first, small enough for
    floating point to compute every step of [gram_schmidt] on it exactly. *)
Definition X_dup : 'M[R]_(2, 2) := of_rows 2 2 [:: [:: 1; 1]; [:: 0; 0]].

(** The coefficients of the projection on the columns of [X0]. *)
Definition b0 : 'cV[R]_2 :=
  of_rows 2 1 [:: [:: - 13%:R / 23%:R]; [:: - 25%:R / 46%:R]].

End GramSchmidtDefs.

Arguments Fin {R} _.
Arguments PInf {R}.
Arguments NInf {R}.
Arguments NaN {R}.
Arguments sel {R k} i.

(** ** The generators on parameters that are not numbers

    [markov1] and [markov] take [h_h] and [l_l] as they come: nothing keeps
    a caller from passing [nan] or an infinity.  The draws and the states
    stay numbers.  On parameters that are numbers these are the functions
    above. *)
Module AnyFloat.

Section Defs.

Variable R : rcfType.

(** What [np.empty] finds in memory, and the random source. *)
Variable junk : nat -> R.
Variable rng : nat -> R.

(** [x < p], [x <= p] and [x > p] for a number [x] and a float [p]: every
    comparison with [nan] is [False]. *)
Definition lt (x : R) (p : float R) : bool :=
  match p with Fin v => x < v | PInf => true | NInf | NaN => false end.

Definition le (x : R) (p : float R) : bool :=
  match p with Fin v => x <= v | PInf => true | NInf | NaN => false end.

Definition gt (x : R) (p : float R) : bool :=
  match p with Fin v => x > v | NInf => true | PInf | NaN => false end.

Definition is_nan (p : float R) : bool := if p is NaN then true else false.

(** The body of the main loop of [markov1], at counter [i]. *)
Definition markov1_body (states : seq R) (h_h l_l : float R) (x : seq R)
    (i : nat) (seq_states : seq R) : result (seq R) :=
  cur <- getitem seq_states i ;;
  if cur == 1 then
    xi <- getitem x i ;;
    if le xi h_h then
      v <- getitem states 0 ;; setitem seq_states i.+1 v
    else
      v <- getitem states 1 ;; setitem seq_states i.+1 v
  else
    xi <- getitem x i ;;
    if le xi l_l then
      v <- getitem states 1 ;; setitem seq_states i.+1 v
    else
      v <- getitem states 0 ;; setitem seq_states i.+1 v.

(** [markov1(n, h_h, l_l)] *)
Definition markov1 (n : int) (h_h l_l : float R) : result (seq R) :=
  let states := [:: 1; 0] in
  init_state <- getitem states 0 ;;
  seq_states <- np_empty junk n ;;
  seq_states <- setitem seq_states 0 init_state ;;
  x <- np_random_uniform rng 0 1 n ;;
  while_lt (markov1_body states h_h l_l x) (trips n) 0%N seq_states.

(** The body of the main loop of [markov]. *)
Definition markov_body (h_h l_l : float R) (x : seq R)
    (i : nat) (seq_states : seq R) : result (seq R) :=
  cur <- getitem seq_states i ;;
  if cur == 1 then
    xi <- getitem x i ;; setitem seq_states i.+1 (of_bool (lt xi h_h))
  else
    xi <- getitem x i ;; setitem seq_states i.+1 (of_bool (gt xi l_l)).

(** [markov(n, h_h, l_l)] *)
Definition markov (n : int) (h_h l_l : float R) : result (seq R) :=
  let init_state := 1 in
  seq_states <- np_empty junk n ;;
  seq_states <- setitem seq_states 0 init_state ;;
  x <- np_random_uniform rng 0 1 n ;;
  while_lt (markov_body h_h l_l x) (trips n) 0%N seq_states.

(** One transition of [markov] and of [markov1] at pass [i]. *)
Definition markov_next (h_h l_l : float R) (i : nat) (cur : R) : R :=
  if cur == 1 then of_bool (lt (rng i) h_h) else of_bool (gt (rng i) l_l).

Definition markov1_next (h_h l_l : float R) (i : nat) (cur : R) : R :=
  if cur == 1 then (if le (rng i) h_h then 1 else 0)
  else (if le (rng i) l_l then 0 else 1).

End Defs.

End AnyFloat.

(** Concrete inputs: real algebraic numbers, and a memory full of [nan]. *)
Definition nan_memory (i j : nat) : float algR := NaN.

(** A largest float, small enough to overflow by hand. *)
Definition float_max100 : algR := 100%:R.

(** A memory full of zeros and a stream whose every draw is 1/2. *)
Definition zerosR (i : nat) : algR := 0.
Definition halves (i : nat) : algR := 2%:R^-1.

(** ** The numerical kernels of speed.ipynb *)

(** [range(n)]: empty for [n <= 0]. *)
Definition range (n : int) : seq nat := if n is Posz m then iota 0 m else [::].

Section SpeedDefs.

(** Floats, with exact arithmetic and the usual order. *)
Variable R : realFieldType.

(** What [np.empty] finds in memory. *)
Variable junk : nat -> R.

(** The largest C [int] of the platform. *)
Variable int_max : nat.

(** The body of the loop of [gen_diff], [gen_cython1] and [gen_cython]:
    [x[i+1] = 4*x[i]*(1-x[i])]. *)
Definition gen_diff_body (i : nat) (x_values : seq R) : result (seq R) :=
  a <- getitem x_values i ;;
  b <- getitem x_values i ;;
  setitem x_values i.+1 (4%:R * a * (1 - b)).

(** [gen_diff(x_0, T)] of the first cell, run by the interpreter, on a
    finite [x_0]. (The copy under [@jit] is compiled by numba without
    bounds checks: it does the same only where no store is out of range,
    for [T >= 1].) *)
Definition gen_diff (x_0 : R) (T : int) : result (seq R) :=
  x_values <- np_empty junk T ;;
  x_values <- setitem x_values 0 x_0 ;;
  for_in gen_diff_body (range (T - 1)) x_values.

(** [gen_cython1(double x_0, int T)], on a numpy array. *)
Definition gen_cython1 (x_0 : R) (T : int) : result (seq R) :=
  T <- c_int int_max T ;;
  x <- np_empty junk T ;;
  x <- setitem x 0 x_0 ;;
  for_in gen_diff_body (range (T - 1)) x.

(** [gen_cython(double x_0, int T)], on a memoryview of the array. *)
Definition gen_cython (x_0 : R) (T : int) : result (seq R) :=
  T <- c_int int_max T ;;
  x_np_array <- np_empty junk T ;;
  let x := x_np_array in
  x <- setitem x 0 x_0 ;;
  for_in gen_diff_body (range (T - 1)) x.

(** One step of the difference equation, [4 x (1 - x)]. *)
Definition logistic (i : nat) (x : R) : R := 4%:R * x * (1 - x).

End SpeedDefs.

(** *** The geometric sums

    The powers and the sums are floats: beyond the largest float
    [float_max] a result overflows.  Rounding is not modelled, and [alpha]
    is a finite number. *)
Section GeoSumDefs.

Variable R : rcfType.

(** The largest float and the largest C [int] of the platform. *)
Variable float_max : R.
Variable int_max : nat.

(** A float result that may overflow: an infinity of its sign. *)
Definition overflow (v : R) : float R :=
  if float_max < v then PInf else if v < - float_max then NInf else Fin v.

(** [sum + p] on floats: an overflow gives an infinity and raises
    nothing. *)
Definition float_add (sum p : float R) : float R :=
  if fadd sum p is Fin v then overflow v else fadd sum p.

(** [alpha**i] on Python floats: a result too large for a float raises
    [OverflowError]. *)
Definition float_pow (alpha : R) (i : nat) : result R :=
  if `|alpha ^+ i| <= float_max then Ok (alpha ^+ i) else Raise OverflowError.

(** [alpha**i] on a C [double] and a C [int], the [pow] of the C library:
    a result too large is an infinity. *)
Definition c_pow (alpha : R) (i : nat) : float R := overflow (alpha ^+ i).

(** The body of the loop of [geo_sum]: [sum = sum + alpha**i]. *)
Definition geo_sum_body (alpha : R) (i : nat) (sum : float R) :
    result (float R) :=
  p <- float_pow alpha i ;;
  Ok (float_add sum (Fin p)).

(** [geo_sum(alpha, n)] *)
Definition geo_sum (alpha : R) (n : int) : result (float R) :=
  let sum := Fin 0 in
  for_in (geo_sum_body alpha) (range n) sum.

(** [geo_sum_cython(double alpha, int n)] *)
Definition geo_sum_cython (alpha : R) (n : int) : result (float R) :=
  n <- c_int int_max n ;;
  let sum := Fin 0 in
  Ok (foldl (fun sum i => float_add sum (c_pow alpha i)) sum (range n)).

(** A float that is a number. *)
Definition finite (v : float R) : bool := if v is Fin _ then true else false.

End GeoSumDefs.

(** The cell on caching defines a third [gen_diff]; the decorator
    [memory.cache] stores its results on disk and is left out. *)
Module Caching.

Section Defs.

Variable R : rcfType.
Variable junk : nat -> R.

(** [np.mean(b)] of an array of booleans: the share of [True], [nan] for an
    empty array. *)
Definition np_mean (b : seq bool) : float R :=
  fdiv (count id b)%:R (size b)%:R.

(** [gen_diff(x0, n)]: the share of the points of the path below 0.1. *)
Definition gen_diff (x0 : R) (n : int) : result (float R) :=
  x <- np_empty junk (n + 1) ;;
  x <- setitem x 0 x0 ;;
  x <- for_in (@gen_diff_body R) (range n) x ;;
  Ok (np_mean [seq v < 1 / 10%:R | v <- x]).

End Defs.

End Caching.

(** The first two cells search the maximum of a function over a grid, one
    with two loops and one with [np.vectorize]. *)
Module GridSearch.

Section Defs.

Variable R : rcfType.

(** [np.cos], any function of a float. *)
Variable np_cos : R -> R.

(** [f(x, y)]: [np.cos(x**2 + y**2)/(1 + x**2 + y**2)] *)
Definition f (x y : R) : R :=
  np_cos (x ^+ 2 + y ^+ 2) / (1 + x ^+ 2 + y ^+ 2).

(** [z > m] for a number [z] and the running maximum [m], which starts at
    [-np.inf]. *)
Definition gt (z : R) (m : float R) : bool :=
  match m with
  | Fin v => v < z
  | NInf => true
  | PInf | NaN => false
  end.

(** The two loops over [grid]; the result is what the cell prints. *)
Definition loop (grid : seq R) : float R :=
  let m := NInf in
  foldl (fun m x =>
    foldl (fun m y => let z := f x y in if gt z m then Fin z else m) m grid)
    m grid.

(** [np.vectorize(f)(xs, ys)] on one-dimensional arrays: the arrays are
    broadcast against each other and [f] is applied position by position;
    an empty array and lengths that do not broadcast raise [ValueError]. *)
Definition np_vectorize (f : R -> R -> R) (xs ys : seq R) : result (seq R) :=
  if (xs == [::]) || (ys == [::]) then Raise ValueError
  else if size xs == size ys then Ok [seq f p.1 p.2 | p <- zip xs ys]
  else if xs is [:: x] then Ok [seq f x y | y <- ys]
  else if ys is [:: y] then Ok [seq f x y | x <- xs]
  else Raise ValueError.

(** [a.max()]: an empty array raises [ValueError]. *)
Definition max (a : seq R) : result R :=
  if a is v :: a' then Ok (foldl Num.max v a') else Raise ValueError.

(** [f = np.vectorize(f); f(grid, grid).max()] *)
Definition vectorized (grid : seq R) : result R :=
  let f := np_vectorize f in
  a <- f grid grid ;;
  max a.

End Defs.

End GridSearch.

(** * Part II: the properties *)

(** ** Indexing and loops *)

Section PyTheory.

Variable T : Type.
Implicit Types (s pre rest : seq T) (v cur old : T) (i m todo : nat).

Lemma bind_Ok (U : Type) (v : T) (k : T -> result U) : bind (Ok v) k = k v.
Proof. by []. Qed.

Lemma getitem_cat pre v rest i :
  size pre = i -> getitem (pre ++ v :: rest) i = Ok v.
Proof. by move=> <-; rewrite /getitem drop_size_cat. Qed.

Lemma getitem_mkseq (f : nat -> T) m i :
  (i < m)%N -> getitem (mkseq f m) i = Ok (f i).
Proof.
move=> lt_im; rewrite /getitem /mkseq -map_drop drop_iota add0n.
by rewrite -subn_gt0 in lt_im; case: (m - i)%N lt_im.
Qed.

Lemma setitem_cat pre old v rest i :
  size pre = i -> setitem (pre ++ old :: rest) i v = Ok (pre ++ v :: rest).
Proof.
move=> <-; rewrite /setitem size_cat /= -addSnnS ltn_addr //.
rewrite take_size_cat //; congr (Ok (_ ++ _ :: _)).
by rewrite -[pre ++ _]cat_rcons -(size_rcons pre old) drop_size_cat.
Qed.

Lemma setitem_next pre cur old v rest i :
  size pre = i ->
  setitem (pre ++ cur :: old :: rest) i.+1 v = Ok (pre ++ cur :: v :: rest).
Proof.
move=> sz; rewrite -[pre ++ [:: cur, old & _]]cat_rcons.
by rewrite -[pre ++ [:: cur, v & _]]cat_rcons setitem_cat // size_rcons sz.
Qed.

(** Pass [i] runs exactly when the test of the loop holds at counter [i]. *)
Lemma tripsP (n : int) i : (i < trips n)%N = (i%:Z < n - 1).
Proof. by rewrite /trips; case: (n - 1) => k //; rewrite NegzE ltrNr. Qed.

Lemma trips_succ m : trips m.+1 = m.
Proof. by rewrite /trips -addn1 PoszD addrK. Qed.

Lemma size_chain (next : nat -> T -> T) todo i cur :
  size (chain next todo i cur) = todo.+1.
Proof. by elim: todo i cur => [|t IH] i cur //=; rewrite IH. Qed.

(** A body that reads cell [i] and overwrites cell [i + 1] with [next]
    fills the array with the chain. *)
Lemma while_lt_chain (body : nat -> seq T -> result (seq T))
    (next : nat -> T -> T) (bound : nat) :
  (forall i pre cur old rest, size pre = i -> (i < bound)%N ->
     body i (pre ++ cur :: old :: rest) = Ok (pre ++ cur :: next i cur :: rest)) ->
  forall todo i pre cur rest,
    size pre = i -> size rest = todo -> (i + todo <= bound)%N ->
    while_lt body todo i (pre ++ cur :: rest) = Ok (pre ++ chain next todo i cur).
Proof.
move=> bodyE; elim=> [|t IH] i pre cur [|old rest] //= sz_pre [sz_rest] le_b.
rewrite bodyE //; first by apply: (leq_trans _ le_b); rewrite addnS ltnS leq_addr.
rewrite /= -[pre ++ [:: cur, _ & _]]cat_rcons -[pre ++ cur :: chain _ _ _ _]cat_rcons.
apply: IH => //; first by rewrite size_rcons sz_pre.
by rewrite addSnnS.
Qed.

Lemma nth_chain0 x0 (next : nat -> T -> T) todo i cur :
  nth x0 (chain next todo i cur) 0 = cur.
Proof. by case: todo. Qed.

(** Each state of the chain is [next] of the one before it. *)
Lemma nth_chainS x0 (next : nat -> T -> T) todo i cur j :
  (j < todo)%N ->
  nth x0 (chain next todo i cur) j.+1 =
  next (i + j)%N (nth x0 (chain next todo i cur) j).
Proof.
elim: todo i cur j => [|t IH] i cur [|j] //=; first by rewrite addn0 nth_chain0.
by rewrite ltnS => lt_jt; rewrite IH // addSnnS.
Qed.

Lemma all_chain (P : pred T) (next : nat -> T -> T) todo i cur :
  P cur -> (forall j v, P (next j v)) -> all P (chain next todo i cur).
Proof.
move=> + Pnext; elim: todo i cur => [|t IH] i cur /= -> //=.
exact: IH.
Qed.

(** Two transition functions that agree on the states one of them visits
    give the same chain. *)
Lemma eq_chain_along x0 (next1 next2 : nat -> T -> T) todo i cur :
  (forall j, (j < todo)%N ->
     next2 (i + j)%N (nth x0 (chain next1 todo i cur) j) =
     next1 (i + j)%N (nth x0 (chain next1 todo i cur) j)) ->
  chain next2 todo i cur = chain next1 todo i cur.
Proof.
elim: todo i cur => [|t IH] i cur //= eq_next.
have := eq_next 0%N isT; rewrite addn0 /= => ->; congr (_ :: _).
by apply: IH => j lt_jt; rewrite addSnnS; apply: (eq_next j.+1).
Qed.

(** A state that [next] maps to itself is kept from the position where the
    chain reaches it. *)
Lemma chain_absorbing x0 (next : nat -> T -> T) (c : T) todo i cur j k :
  (forall p, next p c = c) -> (j <= k <= todo)%N ->
  nth x0 (chain next todo i cur) j = c -> nth x0 (chain next todo i cur) k = c.
Proof.
move=> fix_c /andP[le_jk le_k] at_j; rewrite -(subnKC le_jk).
have: (j + (k - j) <= todo)%N by rewrite subnKC.
elim: (k - j)%N => [|d IH]; first by rewrite addn0.
by rewrite addnS => lt_d; rewrite nth_chainS // IH // ltnW.
Qed.

End PyTheory.

(** ** The state-sequence generators *)

Section MarkovTheory.

Variable R : realFieldType.
Variables (junk : nat -> R) (junkz : nat -> int) (int_max : nat).
Variable rng : nat -> R.

Local Notation np_random_uniform := (np_random_uniform rng).
Local Notation markov1 := (markov1 junk rng).
Local Notation markov := (markov junk rng).
Local Notation c_int := (c_int int_max).
Local Notation markov_cython := (markov_cython junkz int_max rng).
Local Notation markov_next := (markov_next rng).
Local Notation markov1_next := (markov1_next rng).

Lemma uniform01 (m : nat) : np_random_uniform 0 1 m = Ok (mkseq rng m).
Proof.
rewrite /np_random_uniform; congr Ok; apply: eq_map => i.
by rewrite subr0 mul1r add0r.
Qed.

Lemma markovE (m : nat) (h_h l_l : R) :
  markov m.+1 h_h l_l = Ok (chain (markov_next h_h l_l) m 0 1).
Proof.
rewrite /markov (uniform01 m.+1) trips_succ /= drop0.
apply: (@while_lt_chain _ _ _ m _ m 0%N [::]); rewrite ?size_map ?size_iota //.
move=> i pre cur old rest sz_pre lt_im.
rewrite /markov_body /markov_cython_body.
rewrite getitem_cat //= /markov_next getitem_mkseq ?ltnS 1?ltnW //.
by case: (cur == 1); rewrite /= setitem_next.
Qed.

Lemma markov1E (m : nat) (h_h l_l : R) :
  markov1 m.+1 h_h l_l = Ok (chain (markov1_next h_h l_l) m 0 1).
Proof.
rewrite /markov1 (uniform01 m.+1) trips_succ /= drop0.
apply: (@while_lt_chain _ _ _ m _ m 0%N [::]); rewrite ?size_map ?size_iota //.
move=> i pre cur old rest sz_pre lt_im.
rewrite /markov1_body getitem_cat //= /markov1_next.
rewrite getitem_mkseq ?ltnS 1?ltnW //.
by case: (cur == 1); rewrite /=; case: (_ <= _); rewrite /= setitem_next.
Qed.

Lemma c_int_small (m : nat) : (m <= int_max)%N -> c_int m = Ok (Posz m).
Proof.
rewrite /c_int lez_nat => ->; rewrite andbT.
by rewrite (@le_trans _ _ 0) // oppr_le0.
Qed.

Lemma markov_cythonE (m : nat) (h_h l_l : R) :
  (m.+1 <= int_max)%N ->
  markov_cython m.+1 h_h l_l = Ok (chain (markov_next h_h l_l) m 0 1).
Proof.
move=> /c_int_small eq_n.
rewrite /markov_cython eq_n bind_Ok (uniform01 m.+1) trips_succ /= drop0.
apply: (@while_lt_chain _ _ _ m _ m 0%N [::]); rewrite ?size_map ?size_iota //.
move=> i pre cur old rest sz_pre lt_im.
rewrite /markov_body /markov_cython_body.
rewrite getitem_cat //= /markov_next getitem_mkseq ?ltnS 1?ltnW //.
by case: (cur == 1); rewrite /= setitem_next.
Qed.

(** *** Properties of the generated sequence *)

Lemma binary_of_bool (T : nzRingType) (b : bool) : binary (of_bool b : T).
Proof. by case: b; rewrite /binary /= eqxx ?orbT. Qed.

Lemma binary_markov_next (T : nzRingType) h_h l_l i (v : T) :
  binary (markov_next h_h l_l i v).
Proof. by rewrite /markov_next; case: ifP => _; apply: binary_of_bool. Qed.

Lemma int_ge1 (n : int) : 1 <= n -> exists m : nat, n = m.+1.
Proof. by case: n => [[|m]|m] // _; exists m. Qed.

Lemma lt_pred_succ (i m : nat) : (i%:Z < m.+1%:Z - 1) = (i < m)%N.
Proof. by rewrite -addn1 PoszD addrK ltz_nat. Qed.

Lemma zero_neq_one : ((0 : R) == 1) = false.
Proof. by rewrite eq_sym oner_eq0. Qed.

(** C1, as the code has it. For every [n >= 1] the sequence [markov]
    returns has 1 at position 0 and, for every position [i] from 0 to
    [n - 2] with draw [r = x[i]]: from state 1 the next state is 1 when
    [r < h_h] and 0 otherwise; from state 0 the next state is 1 when
    [r > l_l] and 0 otherwise.  [markov1] follows the same rule with
    [r <= h_h] in place of [r < h_h]. *)
Theorem markov_follows_step_rule (n : int) (h_h l_l : R) :
  1 <= n ->
  (exists2 s, markov n h_h l_l = Ok s & markov_step_rule h_h l_l n rng s) /\
  (exists2 s, markov1 n h_h l_l = Ok s & markov1_step_rule h_h l_l n rng s).
Proof.
case/int_ge1 => m ->; split.
  exists (chain (markov_next h_h l_l) m 0 1); first exact: markovE.
  split=> [|i]; first exact: nth_chain0.
  rewrite lt_pred_succ => lt_im; rewrite nth_chainS // add0n /markov_next.
  by split=> ->; rewrite ?eqxx ?zero_neq_one.
exists (chain (markov1_next h_h l_l) m 0 1); first exact: markov1E.
split=> [|i]; first exact: nth_chain0.
rewrite lt_pred_succ => lt_im; rewrite nth_chainS // add0n /markov1_next.
split=> ->; rewrite ?eqxx ?zero_neq_one //.
by rewrite ltNge; case: (_ <= _).
Qed.

(** C4. For every integer [n >= 1], all parameters [h_h], [l_l] and every
    stream of draws, [markov] returns a sequence of exactly [n] elements
    that starts with 1 and holds only 0 and 1, the one-element sequence
    [[1]] when [n = 1]; and so does [markov_cython] for every [n] that its
    parameter type, a C [int], can hold. *)
Theorem markov_length_head_binary (n : int) (h_h l_l : R) :
  1 <= n ->
  (exists s, [/\ markov n h_h l_l = Ok s, (size s)%:Z = n, nth 0 s 0 = 1,
                 all (@binary R) s & n = 1 -> s = [:: 1]]) /\
  (n <= int_max%:Z ->
   exists s, [/\ markov_cython n h_h l_l = Ok s, (size s)%:Z = n,
                 nth 0 s 0 = 1, all (@binary int) s & n = 1 -> s = [:: 1]]).
Proof.
case/int_ge1 => m ->; split=> [|le_m].
  exists (chain (markov_next h_h l_l) m 0 1); split; rewrite ?size_chain //.
  - exact: markovE.
  - exact: nth_chain0.
  - by apply: all_chain; [rewrite /binary eqxx orbT | exact: binary_markov_next].
  - by case=> ->.
exists (chain (markov_next h_h l_l) m 0 1); split; rewrite ?size_chain //.
- exact: markov_cythonE.
- exact: nth_chain0.
- by apply: all_chain; [rewrite /binary eqxx orbT | exact: binary_markov_next].
- by case=> ->.
Qed.

(** *** The share of the draws that leave state 0 *)

(** A downward closed predicate holds on an initial segment of [0 .. N-1],
    and [count] gives its length. *)
Lemma count_initial (p : pred nat) (N : nat) :
  (forall j k, (j <= k)%N -> p k -> p j) ->
  (forall k, (k < count p (iota 0 N))%N -> p k) /\
  ((count p (iota 0 N) < N)%N -> ~~ p (count p (iota 0 N))).
Proof.
move=> down; elim: N => [|N [below at_d]]; first by [].
rewrite -[N.+1]addn1 iotaD count_cat /= add0n addn0.
set d := count p (iota 0 N) in below at_d *.
have le_dN : (d <= N)%N by rewrite -[N in (_ <= N)%N](size_iota 0) count_size.
have [pN|npN] := boolP (p N).
  have eq_dN : d = N.
    apply/eqP; rewrite eqn_leq le_dN leqNgt; apply/negP => /[dup] lt_dN.
    by move/at_d/negP; apply; apply: down pN.
  rewrite eq_dN addn1 ltnn; split=> // k; rewrite ltnS leq_eqVlt.
  by case/orP => [/eqP-> //|]; rewrite -eq_dN; apply: below.
rewrite addn0; split=> // _.
by move: le_dN; rewrite leq_eqVlt => /orP[/eqP->|/at_d].
Qed.

(** Of the numbers [0 .. N-1], between [t] and [t + 1] are at most [t]. *)
Lemma count_le_bounds (t : R) (N : nat) :
  0 <= t <= N%:R ->
  t <= (count (fun k : nat => k%:R <= t) (iota 0 N))%:R <= t + 1.
Proof.
case/andP=> t_ge0 t_leN.
have [] := @count_initial (fun k : nat => k%:R <= t) N.
  by move=> j k le_jk; apply: le_trans; rewrite ler_nat.
set d := count _ _ => below at_d.
have le_dN : (d <= N)%N by rewrite -[N in (_ <= N)%N](size_iota 0) count_size.
apply/andP; split.
  move: le_dN; rewrite leq_eqVlt => /orP[/eqP-> //|/at_d].
  by rewrite -ltNge => /ltW.
case: d below {at_d le_dN} => [|d] below; first by rewrite addr_ge0.
by rewrite -addn1 natrD lerD2r; apply: below.
Qed.

Lemma frequency_le (l : R) (N : nat) :
  (0 < N)%N -> 0 <= l <= 1 ->
  l <= frequency N (fun r => r <= l) <= l + 1 / N%:R.
Proof.
move=> N_gt0 /andP[l_ge0 l_le1]; have N_pos : 0 < N%:R :> R by rewrite ltr0n.
rewrite /frequency.
have -> : count (fun k : nat => k%:R / N%:R <= l) (iota 0 N) =
          count (fun k : nat => k%:R <= l * N%:R) (iota 0 N).
  by apply: eq_count => k /=; rewrite ler_pdivrMr.
have /andP[lo hi] : l * N%:R <= (count (fun k : nat => k%:R <= l * N%:R)
                        (iota 0 N))%:R <= l * N%:R + 1.
  apply: count_le_bounds; rewrite mulr_ge0 ?ler0n //=.
  by rewrite -[leRHS]mul1r ler_pM2r.
by rewrite ler_pdivlMr // lo /= ler_pdivrMr // mulrDl divfK ?mul1r // gt_eqF.
Qed.

Lemma frequency_gt (l : R) (N : nat) :
  (0 < N)%N -> 0 <= l <= 1 ->
  1 - l - 1 / N%:R <= frequency N (fun r => r > l) <= 1 - l.
Proof.
move=> N_gt0 l01; have N_pos : 0 < N%:R :> R by rewrite ltr0n.
have := frequency_le N_gt0 l01; rewrite /frequency.
set p := fun k : nat => _ <= l; set q := fun k : nat => l < _.
have -> : count q (iota 0 N) = (N - count p (iota 0 N))%N.
  have eqN := count_predC p (iota 0 N); rewrite size_iota in eqN.
  rewrite -[X in (X - _)%N]eqN addKn.
  by apply: eq_count => k; rewrite /q /p /= ltNge.
have le_cN : (count p (iota 0 N) <= N)%N.
  by rewrite -[N in (_ <= N)%N](size_iota 0) count_size.
rewrite natrB // mulrBl divff ?gt_eqF //.
by case/andP=> lo hi; apply/andP; split; lra.
Qed.

Lemma eq_frequency (N : nat) (ev1 ev2 : R -> bool) :
  ev1 =1 ev2 -> frequency N ev1 = frequency N ev2.
Proof. by move=> eq_ev; rewrite /frequency; congr (_%:R / _); apply: eq_count. Qed.

Lemma moves_up_markov (h_h l_l r : R) :
  moves_up (markov_body h_h l_l) r = (r > l_l).
Proof.
rewrite /moves_up /markov_body /= zero_neq_one /=.
by case: (l_l < r); rewrite /= ?eqxx ?zero_neq_one.
Qed.

Lemma moves_up_markov1 (h_h l_l r : R) :
  moves_up (markov1_body [:: 1; 0] h_h l_l) r = (r > l_l).
Proof.
rewrite /moves_up /markov1_body /= zero_neq_one /= [l_l < r]ltNge.
by case: (r <= l_l); rewrite /= ?eqxx ?zero_neq_one.
Qed.

(** C7. From state 0 the next state of [markov] is 1 exactly when the draw
    [r] satisfies [r > l_l], in [markov1] as well; so for [l_l] in [0,1],
    of [N] equally spaced draws of [[0,1)] the share that moves the chain
    from state 0 to state 1 is [1 - l_l] and the share that keeps it in
    state 0 is [l_l], each up to the spacing [1/N] of the draws. *)
Theorem markov_leaves_state0 (n : int) (h_h l_l : R) (N : nat) :
  0 <= l_l <= 1 -> 1 <= n -> (0 < N)%N ->
  [/\ exists2 s, markov n h_h l_l = Ok s &
        forall i : nat, i%:Z < n - 1 -> nth 0 s i = 0 ->
          nth 0 s i.+1 = if rng i > l_l then 1 else 0,
      forall r, moves_up (markov_body h_h l_l) r = (r > l_l),
      forall r, moves_up (markov1_body [:: 1; 0] h_h l_l) r = (r > l_l),
      1 - l_l - 1 / N%:R <= frequency N (moves_up (markov_body h_h l_l))
        <= 1 - l_l
    & l_l <= frequency N (predC (moves_up (markov_body h_h l_l)))
        <= l_l + 1 / N%:R].
Proof.
move=> l01 /int_ge1[m ->] N_gt0; split.
- exists (chain (markov_next h_h l_l) m 0 1); first exact: markovE.
  move=> i; rewrite lt_pred_succ => lt_im at0.
  by rewrite nth_chainS // add0n /markov_next at0 zero_neq_one.
- exact: moves_up_markov.
- exact: moves_up_markov1.
- rewrite (eq_frequency N (moves_up_markov h_h l_l)); exact: frequency_gt.
- rewrite (@eq_frequency N _ (fun r => r <= l_l)); last exact: frequency_le.
  by move=> r; rewrite /= moves_up_markov leNgt.
Qed.

(** C6. When every draw lies in [[0,1)]: with [h_h = 1] every position
    after one in state 1 is in state 1, and with [l_l = 1] every position
    after one in state 0 is in state 0. *)
Theorem markov_absorbing (n : int) (h_h l_l : R) :
  (forall i, 0 <= rng i < 1) -> 1 <= n ->
  (exists2 s, markov n 1 l_l = Ok s &
     forall i j : nat, (i <= j)%N -> j%:Z < n ->
       nth 0 s i = 1 -> nth 0 s j = 1) /\
  (exists2 s, markov n h_h 1 = Ok s &
     forall i j : nat, (i <= j)%N -> j%:Z < n ->
       nth 0 s i = 0 -> nth 0 s j = 0).
Proof.
move=> draws /int_ge1[m ->]; split.
  exists (chain (markov_next 1 l_l) m 0 1); first exact: markovE.
  move=> i j le_ij; rewrite ltz_nat ltnS => le_jm.
  apply: chain_absorbing; rewrite ?le_ij // => k.
  by rewrite /markov_next eqxx; have /andP[_ ->] := draws k.
exists (chain (markov_next h_h 1) m 0 1); first exact: markovE.
move=> i j le_ij; rewrite ltz_nat ltnS => le_jm.
apply: chain_absorbing; rewrite ?le_ij // => k.
rewrite /markov_next zero_neq_one; have /andP[_ /ltW] := draws k.
by rewrite leNgt => /negPf ->.
Qed.

(** C8, as the code has it. [markov] checks neither probability: for every
    [h_h] and [l_l], inside [0,1] or not, a negative [n] raises [ValueError]
    in the allocation, [n = 0] raises [IndexError] at the store of the
    initial state, and every [n >= 1] returns a sequence. *)
Theorem markov_validates_nothing (n : int) (h_h l_l : R) :
  [/\ n < 0 -> markov n h_h l_l = Raise ValueError,
      n = 0 -> markov n h_h l_l = Raise IndexError
    & 1 <= n -> returned (markov n h_h l_l)].
Proof.
split; first by case: n.
  by move=> ->.
by case/int_ge1 => m ->; rewrite markovE.
Qed.

End MarkovTheory.

(** C9. For every [n >= 1], two runs of [markov] whose draws agree on the
    positions 0 to [n - 2] return the same sequence, whatever the draw of
    position [n - 1] and the memory handed out by [np.empty] are. *)
Theorem markov_determined_by_draws (R : realFieldType)
    (junk1 junk2 rng1 rng2 : nat -> R) (n : int) (h_h l_l : R) :
  1 <= n -> (forall i : nat, i%:Z < n - 1 -> rng1 i = rng2 i) ->
  exists2 s, markov junk1 rng1 n h_h l_l = Ok s &
             markov junk2 rng2 n h_h l_l = Ok s.
Proof.
case/int_ge1 => m -> eq_rng.
exists (chain (markov_next rng1 h_h l_l) m 0 1); first exact: markovE.
rewrite markovE; congr Ok; apply: (@eq_chain_along _ 0) => j lt_jm.
by rewrite /markov_next eq_rng // lt_pred_succ.
Qed.

(** *** Concrete runs of the generators *)

(** C1 in the specification's words fails: with [h_h = 0] and [l_l = 0] the
    run on the draws 1/2, 1/2 is 1, 0, 1; at position 1 the state is 0 and
    the draw exceeds [l_l], and the next state is 1 where that rule wants
    0. *)
Lemma spec_step_rule_fails :
  exists2 s, markov zeros const_half 3 0 0 = Ok s &
             ~ spec_step_rule 0 0 3 const_half s.
Proof.
exists [:: 1; 0; 1]; first by rewrite markovE.
by case=> _ /(_ 1%N isT) [_ /(_ erefl)].
Qed.

(** C8 in the specification's words fails: the call [markov(2, 2, 0)] has a
    probability outside [0,1] and returns the sequence 1, 1. *)
Lemma invalid_call_returns :
  invalid_parameter 2 (2%:R : rat) 0 /\
  markov zeros const_half 2 2%:R 0 = Ok [:: 1; 1].
Proof. by split; rewrite ?markovE. Qed.

(** The rule of the code on a run of length 3. *)
Lemma markov_follows_step_rule_run :
  (exists2 s, markov zeros const_half 3 half half = Ok s &
              markov_step_rule half half 3 const_half s) /\
  (exists2 s, markov1 zeros const_half 3 half half = Ok s &
              markov1_step_rule half half 3 const_half s).
Proof. exact: (@markov_follows_step_rule _ zeros const_half 3 half half isT). Defined.

(** Length, head and values of a run of length 3. *)
Lemma markov_length_head_binary_run :
  (exists s, [/\ markov zeros const_half 3 half half = Ok s,
                 (size s)%:Z = 3, nth 0 s 0 = 1,
                 all (@binary rat) s & 3 = 1 :> int -> s = [:: 1]]) /\
  (3 <= int_max16%:Z ->
   exists s, [/\ markov_cython zerosz int_max16 const_half 3 half half = Ok s,
                 (size s)%:Z = 3, nth 0 s 0 = 1,
                 all (@binary int) s & 3 = 1 :> int -> s = [:: 1]]).
Proof.
exact: (@markov_length_head_binary _ zeros zerosz int_max16 const_half 3
          half half isT).
Defined.

(** Absorbing states on a run of length 3 with draws 1/2. *)
Lemma markov_absorbing_run :
  (exists2 s, markov zeros const_half 3 1 half = Ok s &
     forall i j : nat, (i <= j)%N -> j%:Z < 3 :> int ->
       nth 0 s i = 1 -> nth 0 s j = 1) /\
  (exists2 s, markov zeros const_half 3 half 1 = Ok s &
     forall i j : nat, (i <= j)%N -> j%:Z < 3 :> int ->
       nth 0 s i = 0 -> nth 0 s j = 0).
Proof.
exact: (@markov_absorbing _ zeros const_half 3 half half (fun=> isT) isT).
Defined.

(** The share of four equally spaced draws that leave state 0 at
    [l_l = 1/2]. *)
Lemma markov_leaves_state0_run :
  [/\ exists2 s, markov zeros const_half 3 half half = Ok s &
        forall i : nat, i%:Z < 3 - 1 :> int -> nth 0 s i = 0 ->
          nth 0 s i.+1 = if const_half i > half then 1 else 0,
      forall r, moves_up (markov_body half half) r = (r > half),
      forall r, moves_up (markov1_body [:: 1; 0] half half) r = (r > half),
      1 - half - 1 / 4%:R <= frequency 4 (moves_up (markov_body half half))
        <= 1 - half
    & half <= frequency 4 (predC (moves_up (markov_body half half)))
        <= half + 1 / 4%:R].
Proof.
exact: (@markov_leaves_state0 _ zeros const_half 3 half half 4 isT isT isT).
Defined.

(** Two runs of length 3 whose draws differ at position 2 only. *)
Lemma markov_determined_by_draws_run :
  exists2 s, markov zeros const_half 3 half half = Ok s &
             markov const_half half_then_zero 3 half half = Ok s.
Proof.
apply: (@markov_determined_by_draws _ zeros const_half const_half
          half_then_zero 3 half half isT).
by case=> [|[|i]].
Defined.

(** ** The generators on any float *)

Section AnyFloatTheory.

Variable R : rcfType.
Variables (junk : nat -> R) (rng : nat -> R).

(** On numbers they are the functions of the first part. *)
Lemma markov_Fin (n : int) (h_h l_l : R) :
  AnyFloat.markov junk rng n (Fin h_h) (Fin l_l) = markov junk rng n h_h l_l.
Proof. by []. Qed.

Lemma markov1_Fin (n : int) (h_h l_l : R) :
  AnyFloat.markov1 junk rng n (Fin h_h) (Fin l_l) =
  markov1 junk rng n h_h l_l.
Proof. by []. Qed.

Local Notation markov1 := (AnyFloat.markov1 junk rng).
Local Notation markov := (AnyFloat.markov junk rng).
Local Notation markov_next := (AnyFloat.markov_next rng).
Local Notation markov1_next := (AnyFloat.markov1_next rng).

Lemma any_markovE (m : nat) (h_h l_l : float R) :
  markov m.+1 h_h l_l = Ok (chain (markov_next h_h l_l) m 0 1).
Proof.
rewrite /AnyFloat.markov (uniform01 rng m.+1) trips_succ /= drop0.
apply: (@while_lt_chain _ _ _ m _ m 0%N [::]); rewrite ?size_map ?size_iota //.
move=> i pre cur old rest sz_pre lt_im.
rewrite /AnyFloat.markov_body getitem_cat //= /AnyFloat.markov_next.
rewrite getitem_mkseq ?ltnS 1?ltnW //.
by case: (cur == 1); rewrite /= setitem_next.
Qed.

Lemma any_markov1E (m : nat) (h_h l_l : float R) :
  markov1 m.+1 h_h l_l = Ok (chain (markov1_next h_h l_l) m 0 1).
Proof.
rewrite /AnyFloat.markov1 (uniform01 rng m.+1) trips_succ /= drop0.
apply: (@while_lt_chain _ _ _ m _ m 0%N [::]); rewrite ?size_map ?size_iota //.
move=> i pre cur old rest sz_pre lt_im.
rewrite /AnyFloat.markov1_body getitem_cat //= /AnyFloat.markov1_next.
rewrite getitem_mkseq ?ltnS 1?ltnW //.
case: (cur == 1); rewrite /=; case: (AnyFloat.le _ _) => /=;
  by rewrite setitem_next.
Qed.

(** Away from [nan], [x <= p] is the negation of [x > p]. *)
Lemma le_gt (x : R) (p : float R) :
  ~~ AnyFloat.is_nan p -> AnyFloat.le x p = ~~ AnyFloat.gt x p.
Proof. by case: p => [v| | |] //= _; rewrite leNgt. Qed.

(** [x <= p] and [x < p] differ at [x = p] only. *)
Lemma le_lt (x : R) (p : float R) :
  p <> Fin x -> AnyFloat.le x p = AnyFloat.lt x p.
Proof.
case: p => [v| | |] //= ne_v; rewrite le_eqVlt; case: eqP => // eq_v.
by case: ne_v; rewrite eq_v.
Qed.

(** C10, as the code has it. For every [n >= 1], every [h_h], a number or
    not, and every [l_l] other than [nan]: when no draw taken in state 1
    equals [h_h], [markov1] returns the sequence [markov] returns; and on a
    pass that does not start in state 1 the two loop bodies do the same for
    every draw. *)
Theorem markov1_agrees_with_markov (n : int) (h_h l_l : float R) :
  1 <= n -> ~~ AnyFloat.is_nan l_l ->
  (exists2 s, markov n h_h l_l = Ok s &
     ((forall i : nat, i%:Z < n - 1 -> nth 0 s i = 1 -> h_h <> Fin (rng i)) ->
      markov1 n h_h l_l = Ok s)) /\
  (forall (x seq_states : seq R) (i : nat),
     getitem seq_states i <> Ok 1 ->
     AnyFloat.markov1_body [:: 1; 0] h_h l_l x i seq_states =
     AnyFloat.markov_body h_h l_l x i seq_states).
Proof.
case/int_ge1 => m -> not_nan; split; last first.
  move=> x st i; rewrite /AnyFloat.markov1_body /AnyFloat.markov_body.
  case: (getitem st i) => [cur|] //=; have [-> //|_ _] := eqVneq cur 1.
  case: (getitem x i) => [xi|] //=.
  by rewrite le_gt //; case: (AnyFloat.gt _ _).
exists (chain (markov_next h_h l_l) m 0 1); first exact: any_markovE.
move=> ne_h; rewrite any_markov1E; congr Ok.
apply: (@eq_chain_along _ 0) => j lt_jm; rewrite add0n.
rewrite /AnyFloat.markov1_next /AnyFloat.markov_next; case: eqP => [at1|_].
  have := ne_h j; rewrite lt_pred_succ => /(_ lt_jm at1) ne_j.
  by rewrite le_lt //; case: (AnyFloat.lt _ _).
by rewrite le_gt //; case: (AnyFloat.gt _ _).
Qed.

(** With [l_l = nan], [h_h = 0] and every draw at 1/2, the two versions part
    at the first pass that starts in state 0. *)
Lemma nan_run :
  (forall i, rng i = 2%:R^-1) ->
  markov 4 (Fin 0) NaN = Ok [:: 1; 0; 0; 0] /\
  markov1 4 (Fin 0) NaN = Ok [:: 1; 0; 1; 0].
Proof.
move=> eq_half; rewrite any_markovE any_markov1E /=.
rewrite /AnyFloat.markov_next /AnyFloat.markov1_next /= !eq_half.
have pos : (0 : R) < 2%:R^-1 by rewrite invr_gt0 ltr0n.
have lt0 : (2%:R^-1 < 0 :> R) = false by rewrite ltNge (ltW pos).
have le0 : (2%:R^-1 <= 0 :> R) = false by rewrite leNgt pos.
have ne01 : ((0 : R) == 1) = false by rewrite eq_sym oner_eq0.
by rewrite lt0 le0 /= !(eqxx, ne01) /=.
Qed.

End AnyFloatTheory.

(** C10 in the claim's words fails for [l_l = nan], which the code accepts:
    no draw equals [h_h = 0], yet from state 0 [markov1] finds [x[i] <= l_l]
    false and stores 1, where [markov] finds [x[i] > l_l] false and stores
    0. *)
Lemma markov1_differs_at_nan :
  [/\ AnyFloat.markov zerosR halves 4 (Fin 0) NaN = Ok [:: 1; 0; 0; 0],
      AnyFloat.markov1 zerosR halves 4 (Fin 0) NaN = Ok [:: 1; 0; 1; 0]
    & forall i, halves i != 0].
Proof.
have [-> ->] := @nan_run _ zerosR halves (fun=> erefl).
by split=> // i; rewrite /halves invr_eq0 pnatr_eq0.
Qed.

(** [markov1] and [markov] on [h_h = nan] and [l_l = inf]. *)
Lemma markov1_agrees_with_markov_run :
  (exists2 s, AnyFloat.markov zerosR halves 3 NaN PInf = Ok s &
     ((forall i : nat, i%:Z < 3 - 1 :> int -> nth 0 s i = 1 ->
         NaN <> Fin (halves i)) ->
      AnyFloat.markov1 zerosR halves 3 NaN PInf = Ok s)) /\
  (forall (x seq_states : seq algR) (i : nat),
     getitem seq_states i <> Ok 1 ->
     AnyFloat.markov1_body [:: 1; 0] NaN PInf x i seq_states =
     AnyFloat.markov_body NaN PInf x i seq_states).
Proof.
exact: (@markov1_agrees_with_markov _ zerosR halves 3 NaN PInf isT isT).
Defined.

(** ** The Gram-Schmidt routine *)

Section GramSchmidtTheory.

Variable R : rcfType.
Variable junk : nat -> nat -> float R.

Local Notation float := (float R).
Local Notation gram_schmidt := (gram_schmidt junk).
Local Notation Py2 := (Py2 junk).
Local Notation X0 := (X0 R).
Local Notation y0 := (y0 R).
Local Notation p0 := (p0 R).
Local Notation p0_printed := (p0_printed R).
Local Notation X_dup := (X_dup R).
Local Notation b0 := (b0 R).

(** *** Linear algebra of the columns *)

Section Columns.

Variables n k : nat.
Implicit Types (X : 'M[R]_(n, k)) (u v : 'cV[R]_n) (i j : 'I_k).

Lemma dotE u v : u^T *m v = (dot u v)%:M.
Proof.
rewrite [LHS]mx11_scalar !mxE; congr _%:M.
by apply: eq_bigr => r _; rewrite !mxE.
Qed.

Lemma dotC u v : dot u v = dot v u.
Proof. by apply: eq_bigr => r _; rewrite mulrC. Qed.

Lemma sumsq_dot u : \sum_r u r 0 ^+ 2 = dot u u.
Proof. by apply: eq_bigr => r _; rewrite expr2. Qed.

Lemma dot_ge0 u : 0 <= dot u u.
Proof. by rewrite -sumsq_dot sumr_ge0 // => r _; rewrite sqr_ge0. Qed.

Lemma dot_eq0 u : dot u u = 0 -> u = 0.
Proof.
rewrite -sumsq_dot => /psumr_eq0P sq0.
apply/matrixP=> r c; rewrite ord1 mxE; apply/eqP.
by rewrite -sqrf_eq0 sq0 // => r' _; rewrite sqr_ge0.
Qed.

Lemma norm2_eq0 u : (norm2 u == 0) = (u == 0).
Proof.
rewrite /norm2 sqrtr_eq0 sumsq_dot le_eqVlt ltNge dot_ge0 orbF.
by apply/eqP/eqP=> [/dot_eq0 //|->]; rewrite /dot big1 // => r _; rewrite mxE mul0r.
Qed.

Lemma norm2_sq u : norm2 u ^+ 2 = dot u u.
Proof. by rewrite /norm2 sqr_sqrtr sumsq_dot ?dot_ge0. Qed.

Lemma normalize_Fin u :
  u != 0 -> normalize u = map_mx Fin (\col_r (u r 0 / norm2 u)).
Proof.
rewrite -norm2_eq0 => nz; apply/matrixP=> r c.
by rewrite !mxE /fdiv -/(norm2 u) nz.
Qed.

Lemma normalize0 (r : 'I_n) : normalize (0 : 'cV[R]_n) r 0 = NaN.
Proof.
have /eqP d0 : norm2 (0 : 'cV[R]_n) == 0 by rewrite norm2_eq0.
by rewrite !mxE /fdiv -/(norm2 0) d0 !eqxx.
Qed.

End Columns.

Lemma thin_mulmx (m p q : nat) (Z : 'M[R]_(m, p)) (B : 'M[R]_(p, q)) :
  p = 0%N -> Z *m B = 0.
Proof.
move=> p0; apply/matrixP=> a b; rewrite !mxE big1 // => j _.
by have := ltn_ord j; rewrite [X in (_ < X)%N]p0.
Qed.

(** The Gram matrix of independent columns is invertible. *)
Lemma gram_unit (n m : nat) (Z : 'M[R]_(n, m)) :
  independent_columns Z -> Z^T *m Z \in unitmx.
Proof.
move=> indep; rewrite -row_free_unit; apply: inj_row_free => v vG0.
apply: trmx_inj; rewrite trmx0; apply: indep; apply: dot_eq0.
have: (Z *m v^T)^T *m (Z *m v^T) = 0.
  by rewrite trmx_mul trmxK mulmxA -[v *m _ *m _]mulmxA vG0 mul0mx.
by rewrite dotE => /matrixP/(_ 0 0); rewrite !mxE.
Qed.

Section ResidualsTheory.

Variables (n k : nat) (X : 'M[R]_(n, k)).
Implicit Types (i j : 'I_k) (U : 'M[float]_(n, k)).

Local Notation widen := (widen_ord (ltnW (ltn_ord _))).

Lemma prefixE i : prefix X i = X *m sel i.
Proof.
apply/matrixP=> r c; rewrite !mxE (bigD1 (widen c)) //= mxE eqxx mulr1.
by rewrite big1 ?addr0 // => a /negPf ne; rewrite mxE ne mulr0.
Qed.

Lemma sel_widen i (c : 'cV[R]_i) (a : 'I_i) : (sel i *m c) (widen a) 0 = c a 0.
Proof.
rewrite mxE (bigD1 a) //= mxE eqxx mul1r big1 ?addr0 // => b ne_ba.
by rewrite mxE -val_eqE /= eq_sym val_eqE (negPf ne_ba) mul0r.
Qed.

Lemma sel_above i (c : 'cV[R]_i) : (sel i *m c) i 0 = 0.
Proof.
rewrite mxE big1 // => b _; rewrite mxE.
by rewrite -val_eqE /= gtn_eqF ?mul0r.
Qed.

Lemma col_prefix i (c : 'I_i) : col c (prefix X i) = col (widen c) X.
Proof. by apply/matrixP=> r c'; rewrite !mxE. Qed.

Lemma independent_prefix i :
  independent_columns X -> independent_columns (prefix X i).
Proof.
move=> indep c; rewrite prefixE -mulmxA => /indep sel0.
by apply/matrixP=> a b; rewrite ord1 -sel_widen sel0 !mxE.
Qed.

Lemma gs_residE i : gs_resid X i = X *m gs_coef X i.
Proof.
rewrite /gs_resid /gs_coef mulmxBl mul1mx mulmxBr -colE; congr (_ - _).
by rewrite [in RHS]mulmxA -prefixE !mulmxA.
Qed.

Lemma gs_coef_diag i : gs_coef X i i 0 = 1.
Proof.
by rewrite /gs_coef mxE [X in _ + X]mxE sel_above oppr0 addr0 mxE !eqxx.
Qed.

Lemma gram_schmidt_bodyE i U :
  gram_schmidt_body X i U =
  if (gram_ok X) i then Ok (set_col U i (normalize (gs_resid X i)))
  else Raise LinAlgError.
Proof. by rewrite /gram_schmidt_body /np_linalg_inv /gram_ok; case: ifP. Qed.

Lemma for_in_gram_schmidt (r : seq 'I_k) U :
  for_in (gram_schmidt_body X) r U =
  if all (gram_ok X) r then
    Ok (\matrix_(a, c) if c \in r then normalize (gs_resid X c) a 0 else U a c)
  else Raise LinAlgError.
Proof.
elim: r U => [|i r IH] U /=.
  by congr Ok; apply/matrixP=> a c; rewrite mxE.
rewrite gram_schmidt_bodyE; case: ((gram_ok X) i) => //=.
rewrite IH; case: (all _ _) => //; congr Ok; apply/matrixP=> a c.
rewrite !mxE in_cons; case: (c \in r); rewrite ?orbT // orbF.
by case: eqP => [->|].
Qed.

Lemma gs_resid_col0 i : (i : nat) = 0%N -> gs_resid X i = col i X.
Proof.
move=> i0; rewrite /gs_resid mulmxBl mul1mx -!mulmxA thin_mulmx ?subr0 //.
Qed.

Lemma gram_schmidt_no_column : k = 0%N -> gram_schmidt X = Raise IndexError.
Proof. by move=> k0; rewrite /gram_schmidt insubN // k0. Qed.

Lemma gram_schmidtE :
  (0 < k)%N ->
  gram_schmidt X =
  if all (gram_ok X) (filter (fun i : 'I_k => (1 <= i)%N) (enum 'I_k))
  then Ok (gs_columns X) else Raise LinAlgError.
Proof.
move=> k_gt0; rewrite /gram_schmidt (insubT (fun i : nat => (i < k)%N) k_gt0).
rewrite for_in_gram_schmidt; case: (all _ _) => //.
congr Ok; apply/matrixP=> a c; rewrite mxE [RHS]mxE mem_filter mem_enum andbT.
case: (posnP c) => [c0|//]; rewrite gs_resid_col0 //.
have -> : c = Ordinal k_gt0 by apply: val_inj.
by rewrite mxE eqxx.
Qed.

Lemma gs_basis_span : (gs_basis X) = X *m (gs_change X).
Proof.
apply/matrixP=> r i; rewrite [LHS]mxE [RHS]mxE gs_residE [X in X / _]mxE.
rewrite big_distrl /=; apply: eq_bigr => a _; rewrite [(gs_change X) _ _]mxE.
by rewrite -gs_residE mulrA.
Qed.

Lemma gs_basis_dot i j :
  ((gs_basis X)^T *m (gs_basis X)) i j =
  dot (gs_resid X i) (gs_resid X j) /
    (norm2 (gs_resid X i) * norm2 (gs_resid X j)).
Proof.
rewrite mxE /dot big_distrl /=; apply: eq_bigr => r _.
by rewrite mxE [(gs_basis X) _ _]mxE [(gs_basis X) _ _]mxE invfM mulrACA.
Qed.

Hypothesis indep : independent_columns X.

Lemma gs_resid_neq0 i : gs_resid X i != 0.
Proof.
apply/eqP; rewrite gs_residE => /indep coef0.
by have := gs_coef_diag i; rewrite coef0 mxE => /eqP; rewrite eq_sym oner_eq0.
Qed.

Lemma prefix_resid i : (prefix X i)^T *m gs_resid X i = 0.
Proof.
rewrite /gs_resid mulmxA mulmxBr mulmx1 !mulmxA.
by rewrite mulmxV ?gram_unit ?mul1mx ?subrr ?mul0mx //; apply: independent_prefix.
Qed.

Lemma col_resid j i : (j < i)%N -> (col j X)^T *m gs_resid X i = 0.
Proof.
move=> lt_ji; have -> : col j X = col (Ordinal lt_ji) (prefix X i).
  by rewrite col_prefix; congr (col _ X); apply: val_inj.
by rewrite tr_col -row_mul prefix_resid row0.
Qed.

Lemma prefix_le_resid j i : (j <= i)%N -> (prefix X j)^T *m gs_resid X i = 0.
Proof.
move=> le_ji; apply/row_matrixP=> c.
rewrite row_mul row0 -tr_col col_prefix col_resid //.
exact: leq_trans (ltn_ord c) le_ji.
Qed.

Lemma resid_orthogonal j i : (j < i)%N -> dot (gs_resid X j) (gs_resid X i) = 0.
Proof.
move=> lt_ji; have: (gs_resid X j)^T *m gs_resid X i = 0.
  rewrite {1}/gs_resid mulmxBl mul1mx linearB /= mulmxBl col_resid //.
  rewrite !trmx_mul trmxK -!mulmxA prefix_le_resid 1?ltnW //.
  by rewrite !mulmx0 subr0.
by rewrite dotE => /matrixP/(_ 0 0); rewrite !mxE.
Qed.

Lemma gram_ok_independent i : gram_ok X i.
Proof. exact/gram_unit/independent_prefix. Qed.

Lemma gs_columns_Fin : gs_columns X = map_mx Fin (gs_basis X).
Proof.
apply/matrixP=> r i; rewrite mxE normalize_Fin ?gs_resid_neq0 //.
by rewrite !mxE.
Qed.

Lemma gs_basis_orthonormal : (gs_basis X)^T *m (gs_basis X) = 1%:M.
Proof.
apply/matrixP=> i j; rewrite gs_basis_dot [RHS]mxE.
case: (ltngtP i j) => [lt_ij|lt_ji|/val_inj <-].
- by rewrite resid_orthogonal // mul0r -val_eqE /= ltn_eqF.
- by rewrite dotC resid_orthogonal // mul0r -val_eqE /= gtn_eqF.
rewrite eqxx -expr2 norm2_sq divff // -norm2_sq expf_neq0 //.
by rewrite norm2_eq0 gs_resid_neq0.
Qed.

(** With orthonormal columns spanning the columns of [X], [U U^T] is the
    projection of the closed form. *)
Lemma gs_basis_projection :
  (gs_basis X) *m (gs_basis X)^T = X *m invmx (X^T *m X) *m X^T.
Proof.
set G := X^T *m X; set C := (gs_change X).
have CGC : C^T *m G *m C = 1%:M.
  by rewrite /G !mulmxA -trmx_mul -mulmxA -gs_basis_span gs_basis_orthonormal.
have {CGC} /mulmx1C CCG : (C^T *m G) *m C = 1%:M by [].
have G_unit : G \in unitmx by apply: gram_unit.
have -> : invmx G = C *m C^T.
  by rewrite -[LHS]mul1mx -CCG mulmxA -[_ *m G *m _]mulmxA mulmxV // mulmx1.
by rewrite gs_basis_span trmx_mul !mulmxA.
Qed.

End ResidualsTheory.

(** *** What the routines return *)

Lemma fmatmul_Fin (m n p : nat) (A : 'M[R]_(m, n)) (B : 'M[R]_(n, p)) :
  fmatmul (map_mx Fin A) (map_mx Fin B) = map_mx Fin (A *m B).
Proof.
apply/matrixP=> i l; rewrite !mxE (big_morph Fin (id1 := Fin 0) (op1 := @fadd R)) //.
by apply: eq_bigr => j _; rewrite !mxE.
Qed.

(** C2. For every [n]-by-[k] matrix [X] with linearly independent columns,
    a matrix [U] that [gram_schmidt] returns holds numbers only and, over
    exact arithmetic, [U.T @ U] is the [k]-by-[k] identity; and
    [gram_schmidt] does return a matrix when [X] has a column. *)
Theorem gram_schmidt_orthonormal (n k : nat) (X : 'M[R]_(n, k)) :
  independent_columns X ->
  (forall U, gram_schmidt X = Ok U ->
     exists V : 'M[R]_(n, k),
       [/\ U = map_mx Fin V, V^T *m V = 1%:M
         & fmatmul U^T U = map_mx Fin 1%:M]) /\
  ((0 < k)%N -> returned (gram_schmidt X)).
Proof.
move=> indep.
have ok : all (gram_ok X) (filter (fun i : 'I_k => (1 <= i)%N) (enum 'I_k)).
  by apply/allP=> i _; apply: gram_ok_independent.
split=> [U|k_gt0]; last by rewrite gram_schmidtE // ok.
case: (posnP k) => [k0|k_gt0]; first by rewrite gram_schmidt_no_column.
rewrite gram_schmidtE // ok gs_columns_Fin // => -[<-].
exists (gs_basis X); split=> //; first exact: gs_basis_orthonormal.
by rewrite map_trmx fmatmul_Fin gs_basis_orthonormal.
Qed.

(** The two projections agree on independent columns. *)
Lemma Py2_Py1 (n k : nat) (X : 'M[R]_(n, k)) (y : 'cV[R]_n) :
  independent_columns X ->
  (forall p2, Py2 X y = Ok p2 ->
     exists2 p, Py1 X y = Ok p & p2 = map_mx Fin p) /\
  ((0 < k)%N -> returned (Py2 X y)).
Proof.
move=> indep.
have ok : all (gram_ok X) (filter (fun i : 'I_k => (1 <= i)%N) (enum 'I_k)).
  by apply/allP=> i _; apply: gram_ok_independent.
split=> [p2|k_gt0]; last by rewrite /Py2 gram_schmidtE // ok.
rewrite /Py2; case: (posnP k) => [k0|k_gt0].
  by rewrite gram_schmidt_no_column.
rewrite gram_schmidtE // ok gs_columns_Fin //= => -[<-].
exists (X *m invmx (X^T *m X) *m X^T *m y).
  by rewrite /Py1 /np_linalg_inv gram_unit.
by rewrite map_trmx !fmatmul_Fin gs_basis_projection.
Qed.

(** A repeated column leaves no residual. *)
Lemma duplicate_column_resid (n k : nat) (X : 'M[R]_(n, k)) (j i : 'I_k) :
  (j < i)%N -> col j X = col i X -> gram_ok X i -> gs_resid X i = 0.
Proof.
move=> lt_ji dup; rewrite /gram_ok /gs_resid /= => G_unit.
have -> : col i X = prefix X i *m delta_mx (Ordinal lt_ji) 0.
  by rewrite -colE col_prefix -dup; congr (col _ X); apply: val_inj.
rewrite mulmxA mulmxBl mul1mx -[_ *m _ *m _ *m _]mulmxA.
by rewrite mulmxKV ?subrr ?mul0mx.
Qed.

(** *** The notebook's example *)

Lemma cV2_eq0 (c : 'cV[R]_2) :
  c ord0 0 = 0 -> c (lift ord0 ord0) 0 = 0 -> c = 0.
Proof.
move=> c0 c1; apply/matrixP=> a b; rewrite ord1 mxE.
by case: (unliftP ord0 a) => [a' ->|-> //]; rewrite (ord1 a').
Qed.

Lemma independent_X0 : independent_columns X0.
Proof.
move=> c /matrixP Xc.
have := Xc ord0 0; have := Xc (lift ord0 ord0) 0.
rewrite !mxE !big_ord_recl !big_ord0 !mxE /= => eq1 eq0.
by apply: cV2_eq0; lra.
Qed.

Lemma X0_b0 : X0 *m b0 = p0.
Proof.
apply/matrixP=> i j; rewrite (ord1 j) {j}.
case: i => [[|[|[|i]]] lt_i] //; rewrite !mxE !big_ord_recl !big_ord0 !mxE /=;
  lra.
Qed.

Lemma X0_normal_equations : X0^T *m p0 = X0^T *m y0.
Proof.
apply/matrixP=> i j; rewrite (ord1 j) {j}.
case: i => [[|[|i]] lt_i] //; rewrite !mxE !big_ord_recl !big_ord0 !mxE /=;
  lra.
Qed.

Lemma Py1_X0 : Py1 X0 y0 = Ok p0.
Proof.
have G_unit := gram_unit independent_X0.
rewrite /Py1 /np_linalg_inv G_unit /=; congr Ok.
rewrite -!mulmxA -X0_normal_equations -X0_b0 [X0^T *m (_ *m _)]mulmxA.
by rewrite mulKmx.
Qed.

Lemma p0_close (r : 'I_3) : `|p0 r 0 - p0_printed r 0| < 1 / 10%:R ^+ 4.
Proof.
rewrite ltr_distl; case: r => [[|[|[|r]]] lt_r] //; rewrite !mxE /=;
  apply/andP; split; lra.
Qed.

(** C5. For every vector [y] and matrix [X] with linearly independent
    columns, the projection [Py2 = U @ U.T @ y] with [U = gram_schmidt(X)],
    when it returns, is the closed form [Py1 = X @ inv(X.T @ X) @ X.T @ y]
    over exact arithmetic, and it returns when [X] has a column; for
    [X = [[1,0],[0,-6],[2,2]]] and [y = [1,3,-3]] both are
    [-13/23, 75/23, -51/23], within 1e-4 of -0.5652, 3.2609, -2.2174. *)
Theorem projections_agree :
  (forall (n k : nat) (X : 'M[R]_(n, k)) (y : 'cV[R]_n),
     independent_columns X ->
     (forall p2, Py2 X y = Ok p2 ->
        exists2 p, Py1 X y = Ok p & p2 = map_mx Fin p) /\
     ((0 < k)%N -> returned (Py2 X y))) /\
  [/\ Py1 X0 y0 = Ok p0, Py2 X0 y0 = Ok (map_mx Fin p0)
    & forall r, `|p0 r 0 - p0_printed r 0| < 1 / 10%:R ^+ 4].
Proof.
split; first exact: Py2_Py1.
split; [exact: Py1_X0 | | exact: p0_close].
have [agree /(_ isT)] := Py2_Py1 y0 independent_X0.
case E: (Py2 X0 y0) => [p2|] // _.
by have [p] := agree p2 E; rewrite Py1_X0 => -[<-] ->.
Qed.

Lemma X_dup_columns : col ord0 X_dup = col (lift ord0 ord0) X_dup.
Proof.
apply/matrixP=> r c; rewrite !mxE /=.
by case: r => [[|[|r]] lt_r].
Qed.

Lemma gram_ok_X_dup :
  all (gram_ok X_dup) (filter (fun i : 'I_2 => (1 <= i)%N) (enum 'I_2)).
Proof.
apply/allP=> i; rewrite mem_filter => /andP[i_gt0 _].
have -> : i = lift ord0 ord0.
  by apply: val_inj; case: i i_gt0 => [[|[|i]] lt_i].
apply: gram_unit => c /matrixP/(_ ord0 0).
rewrite !mxE big_ord_recl big_ord0 !mxE /= mul1r addr0 => c0.
by apply/matrixP=> a b; rewrite !ord1 mxE.
Qed.

Lemma gram_schmidt_X_dup :
  exists2 U, gram_schmidt X_dup = Ok U & forall r, U r (lift ord0 ord0) = NaN.
Proof.
exists (gs_columns X_dup); first by rewrite gram_schmidtE // gram_ok_X_dup.
move=> r; rewrite mxE (@duplicate_column_resid _ _ _ ord0) ?normalize0 //.
  exact: X_dup_columns.
by have /allP := gram_ok_X_dup; apply; rewrite mem_filter mem_enum.
Qed.

(** C3, as the code has it. [gram_schmidt] has no error of its own and
    never looks at the norm of a residual. On every matrix with a column,
    one with a repeated column included, it either returns a matrix or lets
    through the [LinAlgError] of [np.linalg.inv], raised on the Gram matrix
    of the columns before some column [c >= 1]; and on [[1,1],[0,0]], whose
    second column repeats the first, it returns a matrix whose second
    column holds [nan], the result of 0/0, in every row. *)
Theorem gram_schmidt_duplicate_column :
  (forall (n k : nat) (X : 'M[R]_(n, k)), (0 < k)%N ->
     returned (gram_schmidt X) \/
     gram_schmidt X = Raise LinAlgError /\
     exists2 c : 'I_k, (1 <= c)%N &
       np_linalg_inv ((prefix X c)^T *m prefix X c) = Raise LinAlgError) /\
  (col ord0 X_dup = col (lift ord0 ord0) X_dup /\
   exists2 U, gram_schmidt X_dup = Ok U &
              forall r, U r (lift ord0 ord0) = NaN).
Proof.
split; last by split; [exact: X_dup_columns | exact: gram_schmidt_X_dup].
move=> n k X k_gt0.
rewrite gram_schmidtE //; case ok: (all _ _); [by left | right; split=> //].
move/negbT/allPn: ok => [c]; rewrite mem_filter => /andP[c_gt0 _] not_ok.
by exists c => //; move: not_ok; rewrite /np_linalg_inv /gram_ok => /negPf->.
Qed.

End GramSchmidtTheory.

(** *** The routine on real algebraic numbers *)

(** C3 in the specification's words fails: on [[1,1],[0,0]], whose second
    column repeats the first, [gram_schmidt] raises nothing and returns a
    matrix whose second column is [nan] in every row. *)
Lemma duplicate_column_returns_nan :
  exists2 U, gram_schmidt nan_memory (X_dup algR) = Ok U &
             forall r, U r (lift ord0 ord0) = NaN.
Proof. exact: gram_schmidt_X_dup. Qed.

(** The outcome on that matrix, from the general statement. *)
Lemma gram_schmidt_duplicate_column_run :
  returned (gram_schmidt nan_memory (X_dup algR)) \/
  gram_schmidt nan_memory (X_dup algR) = Raise LinAlgError /\
  exists2 c : 'I_2, (1 <= c)%N &
    np_linalg_inv ((prefix (X_dup algR) c)^T *m prefix (X_dup algR) c) =
    Raise LinAlgError.
Proof.
exact: (proj1 (@gram_schmidt_duplicate_column algR nan_memory) 2%N 2%N
          (X_dup algR) isT).
Defined.

(** The orthonormal basis of the columns of the notebook's matrix. *)
Lemma gram_schmidt_orthonormal_run :
  (forall U, gram_schmidt nan_memory (X0 algR) = Ok U ->
     exists V : 'M[algR]_(3, 2),
       [/\ U = map_mx Fin V, V^T *m V = 1%:M
         & fmatmul U^T U = map_mx Fin 1%:M]) /\
  ((0 < 2)%N -> returned (gram_schmidt nan_memory (X0 algR))).
Proof.
exact: (@gram_schmidt_orthonormal algR nan_memory 3 2 (X0 algR)
          (@independent_X0 algR)).
Defined.

(** * Part III: further properties of the code *)

(** ** More on loops in closed form *)

Section ChainTheory.

Variable T : Type.
Implicit Types (next : nat -> T -> T) (cur c : T) (i m todo : nat).

(** A shorter loop fills a prefix of what a longer loop fills. *)
Lemma take_chain next m m' i cur :
  (m <= m')%N -> take m.+1 (chain next m' i cur) = chain next m i cur.
Proof.
elim: m m' i cur => [|m IH] [|m'] i cur //= le_m; first by rewrite take0.
by rewrite IH.
Qed.

Lemma chain_const next c m i :
  (forall j, next j c = c) -> chain next m i c = nseq m.+1 c.
Proof. by move=> fix_c; elim: m i => [|m IH] i //=; rewrite fix_c IH. Qed.

Lemma map_chain (U : Type) (f : T -> U) next (next' : nat -> U -> U) m i cur :
  (forall j v, f (next j v) = next' j (f v)) ->
  map f (chain next m i cur) = chain next' m i (f cur).
Proof.
by move=> f_next; elim: m i cur => [|m IH] i cur //=; rewrite IH f_next.
Qed.

End ChainTheory.

(** ** More on the state-sequence generators *)

Section MarkovMore.

Variable R : realFieldType.
Variables (junk : nat -> R) (junkz : nat -> int) (int_max : nat).
Variable rng : nat -> R.

Local Notation markov1 := (markov1 junk rng).
Local Notation markov := (markov junk rng).
Local Notation markov_cython := (markov_cython junkz int_max rng).
Local Notation markov_next := (markov_next rng).
Local Notation markov1_next := (markov1_next rng).

Lemma binary_markov1_next h_h l_l i (v : R) :
  binary (markov1_next h_h l_l i v).
Proof.
by rewrite /markov1_next /binary; do 2![case: ifP => _]; rewrite eqxx ?orbT.
Qed.

Lemma markov_next1 h_h l_l i :
  markov_next h_h l_l i (1 : R) = of_bool (rng i < h_h).
Proof. by rewrite /markov_next eqxx. Qed.

Lemma markov_next0 h_h l_l i :
  markov_next h_h l_l i (0 : R) = of_bool (rng i > l_l).
Proof. by rewrite /markov_next zero_neq_one. Qed.

(** X1. [markov1] by its length argument: a negative [n] raises
    [ValueError] in [np.empty], [n = 0] raises [IndexError] at the store of
    the initial state, and every [n >= 1] returns [n] states, each 0 or 1,
    the first of them 1. *)
Theorem markov1_outcome (n : int) (h_h l_l : R) :
  [/\ n < 0 -> markov1 n h_h l_l = Raise ValueError,
      n = 0 -> markov1 n h_h l_l = Raise IndexError
    & 1 <= n ->
      exists s, [/\ markov1 n h_h l_l = Ok s, (size s)%:Z = n, nth 0 s 0 = 1
                  & all (@binary R) s]].
Proof.
split; first by case: n.
  by move=> ->.
case/int_ge1 => m ->; exists (chain (markov1_next h_h l_l) m 0 1).
split; rewrite ?size_chain //; first exact: markov1E.
  exact: nth_chain0.
by apply: all_chain; [rewrite /binary eqxx orbT | exact: binary_markov1_next].
Qed.

(** X2. [markov_cython] by its length argument: an [n] that a C [int]
    cannot hold raises [OverflowError] before anything is allocated, a
    negative [n] raises [ValueError], and [n = 0] raises [IndexError] at the
    store of the initial state, after the draws were taken. *)
Theorem markov_cython_errors (n : int) (h_h l_l : R) :
  [/\ (n < - (int_max%:Z + 1)) || (int_max%:Z < n) ->
      markov_cython n h_h l_l = Raise OverflowError,
      - (int_max%:Z + 1) <= n < 0 -> markov_cython n h_h l_l = Raise ValueError
    & n = 0 -> markov_cython n h_h l_l = Raise IndexError].
Proof.
split=> [out|/andP[lo neg]|->].
- rewrite /markov_cython /c_int leNgt [n <= _]leNgt -negb_or out //.
- rewrite /markov_cython /c_int lo (le_trans (ltW neg)) //=.
  by case: n neg {lo}.
- by rewrite /markov_cython /c_int lez_nat leq0n andbT oppr_le0 addr_ge0.
Qed.

(** X3. For every [n >= 1] that a C [int] can hold, [markov_cython] returns
    the states that [markov] returns on the same draws, as integers
    instead of floats. *)
Theorem markov_cython_agrees_with_markov (n : int) (h_h l_l : R) :
  1 <= n -> n <= int_max%:Z ->
  exists2 s, markov_cython n h_h l_l = Ok s &
             markov n h_h l_l = Ok [seq z%:~R | z <- s].
Proof.
case/int_ge1 => m -> le_m.
exists (chain (markov_next h_h l_l) m 0 1); first exact: markov_cythonE.
rewrite markovE (@map_chain _ _ _ _ (markov_next h_h l_l)) //.
move=> j v; rewrite /markov_next -[(1 : R)]/(1%:~R) eqr_int.
by case: ifP => _; case: (_ < _).
Qed.

(** X4. On the same draws a longer run of [markov] extends a shorter one:
    for [1 <= n <= n'] the sequence of length [n] is the first [n] states
    of the sequence of length [n']. *)
Theorem markov_prefix (n n' : int) (h_h l_l : R) :
  1 <= n -> n <= n' ->
  exists2 s', markov n' h_h l_l = Ok s' &
              markov n h_h l_l = Ok (take `|n| s').
Proof.
case/int_ge1 => m -> le_n; have /int_ge1[m' eq_n'] : 1 <= n'.
  exact: le_trans le_n.
rewrite eq_n' lez_nat ltnS in le_n *.
exists (chain (markov_next h_h l_l) m' 0 1); first exact: markovE.
by rewrite markovE take_chain.
Qed.

(** X5. For draws in [[0,1)] and [h_h >= 1], [markov] never leaves the
    initial state: the sequence is 1 at every position, whatever [l_l]
    is. *)
Theorem markov_all_ones (n : int) (h_h l_l : R) :
  (forall i, 0 <= rng i < 1) -> 1 <= n -> 1 <= h_h ->
  markov n h_h l_l = Ok (nseq `|n| 1).
Proof.
move=> draws /int_ge1[m ->] h1; rewrite markovE.
congr Ok; apply: chain_const => j; rewrite markov_next1.
by have /andP[_ /lt_le_trans->] := draws j.
Qed.

(** X6. For draws in [[0,1)], [h_h <= 0] and [l_l >= 1], [markov] leaves
    the initial state at once and never comes back: the sequence is 1 at
    position 0 and 0 at every later position. *)
Theorem markov_one_then_zeros (n : int) (h_h l_l : R) :
  (forall i, 0 <= rng i < 1) -> 1 <= n -> h_h <= 0 -> 1 <= l_l ->
  markov n h_h l_l = Ok (1 :: nseq `|n|.-1 0).
Proof.
move=> draws /int_ge1[m ->] h0 l1; rewrite markovE.
congr Ok; case: m => [|m] //=; congr (_ :: _).
have /andP[r0 _] := draws 0%N.
rewrite markov_next1 ltNge (le_trans h0 r0) /=.
apply: chain_const => j; rewrite markov_next0.
have /andP[_ /ltW r1] := draws j.
by rewrite ltNge (le_trans r1 l1).
Qed.

End MarkovMore.

(** *** Concrete runs *)

Lemma markov_cython_agrees_with_markov_run :
  exists2 s, markov_cython zerosz int_max16 const_half 3 half half = Ok s &
             markov zeros const_half 3 half half = Ok [seq z%:~R | z <- s].
Proof.
exact: (@markov_cython_agrees_with_markov _ zeros zerosz int_max16 const_half
          3 half half isT isT).
Defined.

Lemma markov_prefix_run :
  exists2 s', markov zeros const_half 3 half half = Ok s' &
              markov zeros const_half 2 half half = Ok (take 2 s').
Proof.
exact: (@markov_prefix _ zeros const_half 2 3 half half isT isT).
Defined.

Lemma markov_all_ones_run :
  markov zeros const_half 3 1 half = Ok (nseq 3 1).
Proof.
exact: (@markov_all_ones _ zeros const_half 3 1 half (fun=> isT) isT isT).
Defined.

Lemma markov_one_then_zeros_run :
  markov zeros const_half 3 0 1 = Ok (1 :: nseq 2 0).
Proof.
exact: (@markov_one_then_zeros _ zeros const_half 3 0 1 (fun=> isT) isT isT
          isT).
Defined.

(** ** More on the Gram-Schmidt routine and the projections *)

Section GramSchmidtMore.

Variable R : rcfType.
Variable junk : nat -> nat -> float R.

Local Notation float := (float R).
Local Notation gram_schmidt := (gram_schmidt junk).
Local Notation Py2 := (Py2 junk).

Lemma Py1E (n k : nat) (X : 'M[R]_(n, k)) (y : 'cV[R]_n) :
  Py1 X y = if X^T *m X \in unitmx
            then Ok (X *m invmx (X^T *m X) *m X^T *m y)
            else Raise LinAlgError.
Proof. by rewrite /Py1 /np_linalg_inv; case: ifP. Qed.

(** X8. Over exact arithmetic, without rounding, overflow or underflow,
    [Py1] on independent columns leaves the column space of [X] in place: a
    vector [X @ b] is its own projection, and projecting a projection
    changes nothing. *)
Theorem Py1_fixes_column_space (n k : nat) (X : 'M[R]_(n, k)) :
  independent_columns X ->
  (forall b : 'cV[R]_k, Py1 X (X *m b) = Ok (X *m b)) /\
  (forall (y p : 'cV[R]_n), Py1 X y = Ok p -> Py1 X p = Ok p).
Proof.
move=> /gram_unit G_unit.
have fix_b (b : 'cV[R]_k) : Py1 X (X *m b) = Ok (X *m b).
  by rewrite Py1E G_unit -!mulmxA [X^T *m (X *m b)]mulmxA mulKmx.
split=> // y p; rewrite Py1E G_unit => -[<-].
by rewrite -!mulmxA; apply: fix_b.
Qed.

Section Dot.

Variable n : nat.
Implicit Types u v : 'cV[R]_n.

Lemma dotDl u v w : dot (u + v) w = dot u w + dot v w.
Proof.
by rewrite /dot -big_split; apply: eq_bigr => r _; rewrite mxE mulrDl.
Qed.

Lemma dotDr u v w : dot u (v + w) = dot u v + dot u w.
Proof. by rewrite dotC dotDl ![dot _ u]dotC. Qed.

Lemma dot_mx u v : dot u v = (u^T *m v) 0 0.
Proof. by rewrite dotE mxE eqxx mulr1n. Qed.

(** Adding an orthogonal vector does not shorten a vector. *)
Lemma dot_orthogonal_le u v : dot v u = 0 -> dot u u <= dot (u + v) (u + v).
Proof.
move=> orth; rewrite dotDl !dotDr orth [dot u v]dotC orth addr0 add0r.
by rewrite lerDl dot_ge0.
Qed.

End Dot.

(** X9. Over exact arithmetic, without rounding, what [Py1] returns is the
    least-squares projection: the residual [y - p] is orthogonal to every
    column of [X], and no vector [X @ b] of the column space is closer to
    [y] than [p] is. *)
Theorem Py1_least_squares (n k : nat) (X : 'M[R]_(n, k)) (y p : 'cV[R]_n) :
  Py1 X y = Ok p ->
  X^T *m (y - p) = 0 /\
  (forall b : 'cV[R]_k, dot (y - p) (y - p) <= dot (y - X *m b) (y - X *m b)).
Proof.
rewrite Py1E; case: ifP => // G_unit [eq_p].
have orth : X^T *m (y - p) = 0.
  rewrite mulmxBr -eq_p -!mulmxA [X^T *m (X *m _)]mulmxA.
  by rewrite mulKVmx ?subrr.
split=> // b.
pose c := invmx (X^T *m X) *m (X^T *m y) - b.
have ->: y - X *m b = (y - p) + X *m c.
  by rewrite /c mulmxBr -eq_p -!mulmxA addrA subrK.
have cross : dot (X *m c) (y - p) = 0.
  by rewrite dot_mx trmx_mul -mulmxA orth mulmx0 mxE.
exact: dot_orthogonal_le.
Qed.

Section ResidualsMore.

Variables (n k : nat) (X : 'M[R]_(n, k)).
Implicit Types i j : 'I_k.

Local Notation widen := (widen_ord (ltnW (ltn_ord _))).

Lemma sel_beyond i (c : 'cV[R]_i) (a : 'I_k) :
  (i <= a)%N -> (sel i *m c) a 0 = 0.
Proof.
move=> le_ia; rewrite mxE big1 // => b _; rewrite mxE -val_eqE /=.
by rewrite gtn_eqF ?mul0r //; apply: leq_trans (ltn_ord b) le_ia.
Qed.

(** The residual of column [i] takes nothing from the columns after [i]. *)
Lemma gs_coef_beyond i (a : 'I_k) : (i < a)%N -> gs_coef X i a 0 = 0.
Proof.
move=> lt_ia; rewrite /gs_coef mxE [X in _ + X]mxE sel_beyond 1?ltnW //.
by rewrite oppr0 addr0 mxE -val_eqE /= gtn_eqF.
Qed.

Lemma gram_ok0 i : (i : nat) = 0%N -> gram_ok X i.
Proof.
rewrite /gram_ok /=; move: (prefix X i); case: (i : nat) => // Z _.
by rewrite unitmxE det_mx00 unitr1.
Qed.

Lemma gs_change_unit :
  (gs_basis X)^T *m gs_basis X = 1%:M -> gs_change X \in unitmx.
Proof.
by rewrite gs_basis_span trmx_mul mulmxA => /mulmx1_unit[].
Qed.

End ResidualsMore.

Lemma all_gram_ok (n k : nat) (X : 'M[R]_(n, k)) (r : seq 'I_k) :
  (forall i, gram_ok X i) -> all (gram_ok X) r.
Proof. by move=> ok; apply/allP=> i _. Qed.

Lemma gt0_columns (n k : nat) (X : 'M[R]_(n, k)) (U : 'M[float]_(n, k)) :
  gram_schmidt X = Ok U -> (0 < k)%N.
Proof. by case: (posnP k) => // k0; rewrite gram_schmidt_no_column. Qed.

Lemma gram_schmidt_Ok (n k : nat) (X : 'M[R]_(n, k)) (U : 'M[float]_(n, k)) :
  gram_schmidt X = Ok U -> (forall i, gram_ok X i) /\ U = gs_columns X.
Proof.
move=> eqU; have k_gt0 := gt0_columns eqU.
move: eqU; rewrite gram_schmidtE //; case: allP => // ok [<-]; split=> // i.
case: (posnP i) => [/gram_ok0 //|i_gt0].
by apply: ok; rewrite mem_filter mem_enum andbT.
Qed.

Lemma gram_schmidt_independent_Ok (n k : nat) (X : 'M[R]_(n, k)) :
  independent_columns X -> (0 < k)%N ->
  gram_schmidt X = Ok (map_mx Fin (gs_basis X)).
Proof.
move=> indep k_gt0; rewrite gram_schmidtE // -gs_columns_Fin //.
by rewrite all_gram_ok //; apply: gram_ok_independent.
Qed.

(** X10. Over exact arithmetic, without rounding, overflow or underflow:
    on independent columns the matrix [gram_schmidt] returns is [X @ C] for
    an invertible upper triangular [C] with a positive diagonal, so that
    column [i] of [U] combines the columns 0 to [i] of [X] and the columns
    of [U] span the column space of [X]. *)
Theorem gram_schmidt_triangular (n k : nat) (X : 'M[R]_(n, k)) :
  independent_columns X -> (0 < k)%N ->
  exists C : 'M[R]_k,
    [/\ gram_schmidt X = Ok (map_mx Fin (X *m C)), C \in unitmx,
        forall a i : 'I_k, (i < a)%N -> C a i = 0
      & forall i, 0 < C i i].
Proof.
move=> indep k_gt0; exists (gs_change X); split.
- rewrite gram_schmidtE // -gs_basis_span -gs_columns_Fin //.
  by rewrite all_gram_ok //; apply: gram_ok_independent.
- exact/gs_change_unit/gs_basis_orthonormal.
- by move=> a i lt_ia; rewrite mxE gs_coef_beyond ?mul0r.
move=> i; rewrite mxE gs_coef_diag div1r invr_gt0 lt_def.
by rewrite norm2_eq0 gs_resid_neq0 //= sqrtr_ge0.
Qed.

Section OrthonormalInput.

Variables (n k : nat) (X : 'M[R]_(n, k)).
Hypothesis orth : X^T *m X = 1%:M.

Local Notation widen := (widen_ord (ltnW (ltn_ord _))).

Lemma gram_entry (a b : 'I_k) : \sum_r X r a * X r b = (a == b)%:R.
Proof.
have /matrixP/(_ a b) := orth; rewrite !mxE => <-.
by apply: eq_bigr => r _; rewrite mxE.
Qed.

Lemma prefix_gram_orth (i : 'I_k) : (prefix X i)^T *m prefix X i = 1%:M.
Proof.
apply/matrixP=> c c'; rewrite !mxE.
under eq_bigr do rewrite !mxE.
by rewrite gram_entry -val_eqE /= val_eqE.
Qed.

Lemma prefix_tr_col (i : 'I_k) : (prefix X i)^T *m col i X = 0.
Proof.
apply/matrixP=> c z; rewrite !mxE.
under eq_bigr do rewrite !mxE.
by rewrite gram_entry -val_eqE /= ltn_eqF.
Qed.

Lemma gram_ok_orth (i : 'I_k) : gram_ok X i.
Proof. by rewrite /gram_ok /= prefix_gram_orth unitmx1. Qed.

Lemma gs_resid_orth (i : 'I_k) : gs_resid X i = col i X.
Proof.
by rewrite /gs_resid mulmxBl mul1mx -!mulmxA prefix_tr_col !mulmx0 subr0.
Qed.

Lemma norm2_col_orth (i : 'I_k) : norm2 (col i X) = 1.
Proof.
rewrite /norm2 -[RHS]sqrtr1; congr Num.sqrt.
rewrite (eq_bigr (fun r => X r i * X r i)) ?gram_entry ?eqxx // => r _.
by rewrite mxE expr2.
Qed.

Lemma gs_columns_orth : gs_columns X = map_mx Fin X.
Proof.
apply/matrixP=> r i; rewrite mxE gs_resid_orth !mxE /fdiv norm2_col_orth.
by rewrite oner_eq0 /= divr1.
Qed.


End OrthonormalInput.

(** X14. Over exact arithmetic, without rounding, overflow or underflow,
    [gram_schmidt] is idempotent on independent columns: applied to the
    numbers it returned, it returns them again. *)
Theorem gram_schmidt_idempotent (n k : nat) (X : 'M[R]_(n, k))
    (U : 'M[float]_(n, k)) :
  independent_columns X -> gram_schmidt X = Ok U ->
  exists2 V : 'M[R]_(n, k), U = map_mx Fin V & gram_schmidt V = Ok U.
Proof.
move=> indep eqU; have k_gt0 := gt0_columns eqU.
have [_ ->] := gram_schmidt_Ok eqU; rewrite gs_columns_Fin //.
exists (gs_basis X) => //; rewrite gram_schmidtE //.
have orth := gs_basis_orthonormal indep.
rewrite gs_columns_orth // all_gram_ok //.
exact: gram_ok_orth.
Qed.

(** X15. A matrix with no column: [gram_schmidt] and with it [Py2] raise
    [IndexError] at the read of [X[:, 0]], while the closed form [Py1]
    returns the zero vector. *)
Theorem no_column_outcome (n : nat) (X : 'M[R]_(n, 0)) (y : 'cV[R]_n) :
  [/\ gram_schmidt X = Raise IndexError, Py2 X y = Raise IndexError
    & Py1 X y = Ok 0].
Proof.
split; rewrite /Py2 ?gram_schmidt_no_column //.
by rewrite Py1E unitmxE det_mx00 unitr1 -!mulmxA thin_mulmx.
Qed.

(** X16. Over exact arithmetic, without rounding, overflow or underflow:
    on independent columns [Py2], the projection through [gram_schmidt],
    leaves the column space of [X] in place: it returns a vector [X @ b] as
    it is. *)
Theorem Py2_fixes_column_space (n k : nat) (X : 'M[R]_(n, k))
    (b : 'cV[R]_k) :
  independent_columns X -> (0 < k)%N ->
  Py2 X (X *m b) = Ok (map_mx Fin (X *m b)).
Proof.
move=> indep k_gt0; rewrite /Py2 gram_schmidtE // gs_columns_Fin //.
rewrite (all_gram_ok _ (gram_ok_independent indep)) /=.
rewrite map_trmx !fmatmul_Fin gs_basis_projection //.
by rewrite -!mulmxA [X^T *m (X *m b)]mulmxA mulKmx // gram_unit.
Qed.

End GramSchmidtMore.

(** *** Concrete runs on real algebraic numbers *)

Lemma Py1_fixes_column_space_run :
  (forall b : 'cV[algR]_2, Py1 (X0 algR) (X0 algR *m b) = Ok (X0 algR *m b)) /\
  (forall (y p : 'cV[algR]_3),
     Py1 (X0 algR) y = Ok p -> Py1 (X0 algR) p = Ok p).
Proof.
exact: (@Py1_fixes_column_space algR 3 2 _ (@independent_X0 algR)).
Defined.

Lemma Py1_least_squares_run :
  (X0 algR)^T *m (y0 algR - p0 algR) = 0 /\
  (forall b : 'cV[algR]_2,
     dot (y0 algR - p0 algR) (y0 algR - p0 algR) <=
     dot (y0 algR - X0 algR *m b) (y0 algR - X0 algR *m b)).
Proof. exact: (@Py1_least_squares algR 3 2 _ _ _ (@Py1_X0 algR)). Defined.

Lemma gram_schmidt_triangular_run :
  exists C : 'M[algR]_2,
    [/\ gram_schmidt nan_memory (X0 algR) = Ok (map_mx Fin (X0 algR *m C)),
        C \in unitmx, forall a i : 'I_2, (i < a)%N -> C a i = 0
      & forall i, 0 < C i i].
Proof.
exact: (@gram_schmidt_triangular algR nan_memory 3 2 _ (@independent_X0 algR)
          isT).
Defined.



Lemma gram_schmidt_idempotent_run :
  exists2 V : 'M[algR]_(3, 2),
    map_mx Fin (gs_basis (X0 algR)) = map_mx Fin V &
    gram_schmidt nan_memory V = Ok (map_mx Fin (gs_basis (X0 algR))).
Proof.
exact: (@gram_schmidt_idempotent algR nan_memory 3 2 _ _ (@independent_X0 algR)
          (gram_schmidt_independent_Ok nan_memory (@independent_X0 algR) isT)).
Defined.

Lemma Py2_fixes_column_space_run :
  Py2 nan_memory (X0 algR) (X0 algR *m b0 algR) =
  Ok (map_mx Fin (X0 algR *m b0 algR)).
Proof.
exact: (@Py2_fixes_column_space algR nan_memory 3 2 _ (b0 algR)
          (@independent_X0 algR) isT).
Defined.

(** ** The numerical kernels of speed.ipynb *)

Section ForTheory.

Variable S : Type.

(** A [for] loop over consecutive counters is the counting loop. *)
Lemma for_in_iota (body : nat -> S -> result S) i todo s :
  for_in body (iota i todo) s = while_lt body todo i s.
Proof.
elim: todo i s => [|t IH] i s //=.
by case: (body i s) => //= s'; rewrite IH.
Qed.

Lemma range_pred (m : nat) : range (m.+1%:Z - 1) = iota 0 m.
Proof. by rewrite -addn1 PoszD addrK. Qed.

(** A property that every step preserves holds along the chain. *)
Lemma all_chain_inv (P : pred S) (next : nat -> S -> S) todo i cur :
  P cur -> (forall j v, P v -> P (next j v)) -> all P (chain next todo i cur).
Proof.
move=> + Pnext; elim: todo i cur => [|t IH] i cur /= Pcur; rewrite Pcur //=.
exact/IH/Pnext.
Qed.

End ForTheory.

Section SpeedTheory.

Variable R : realFieldType.
Variable junk : nat -> R.
Variable int_max : nat.

Local Notation gen_diff := (gen_diff junk).
Local Notation gen_cython1 := (gen_cython1 junk int_max).
Local Notation gen_cython := (gen_cython junk int_max).
Local Notation c_int := (c_int int_max).
Local Notation logistic := (@logistic R).

Lemma gen_diff_bodyE i pre cur old rest :
  size pre = i ->
  gen_diff_body i (pre ++ cur :: old :: rest) =
  Ok (pre ++ cur :: logistic i cur :: rest).
Proof.
by move=> sz; rewrite /gen_diff_body !getitem_cat //= setitem_next.
Qed.

Lemma gen_diffE (x_0 : R) (m : nat) :
  gen_diff x_0 m.+1 = Ok (chain logistic m 0 x_0).
Proof.
rewrite /gen_diff (range_pred m) /= drop0 for_in_iota.
apply: (@while_lt_chain _ _ _ m _ m 0%N [::]); rewrite ?size_map ?size_iota //.
by move=> i pre cur old rest sz _; apply: gen_diff_bodyE.
Qed.

Lemma logistic_unit (i : nat) (v : R) :
  0 <= v <= 1 -> 0 <= logistic i v <= 1.
Proof.
case/andP=> v0 v1; rewrite /logistic; apply/andP; split.
  by rewrite !mulr_ge0 ?ler0n // subr_ge0.
by rewrite -subr_ge0; have := sqr_ge0 (1 - 2%:R * v); congr (0 <= _); ring.
Qed.

Lemma logistic_escape (i : nat) (v : R) : v < 0 -> logistic i v < 0.
Proof.
move=> v0; rewrite /logistic -mulrA pmulr_rlt0 ?ltr0n // nmulr_rlt0 //.
by rewrite subr_gt0 (lt_trans v0).
Qed.

(** X17. [gen_diff] of the first cell, as the interpreter runs it, by its
    length argument: a negative [T] raises [ValueError], [T = 0] raises
    [IndexError] at the store of the initial value, and every [T >= 1]
    returns a path of [T] values that starts at [x_0] and follows
    [x[i+1] = 4 x[i] (1 - x[i])]. *)
Theorem gen_diff_outcome (x_0 : R) (T : int) :
  [/\ T < 0 -> gen_diff x_0 T = Raise ValueError,
      T = 0 -> gen_diff x_0 T = Raise IndexError
    & 1 <= T ->
      exists x, [/\ gen_diff x_0 T = Ok x, (size x)%:Z = T, nth 0 x 0 = x_0
                  & forall i : nat, i%:Z < T - 1 ->
                      nth 0 x i.+1 = 4%:R * nth 0 x i * (1 - nth 0 x i)]].
Proof.
split; first by case: T.
  by move=> ->.
case/int_ge1 => m ->; exists (chain logistic m 0 x_0).
split; rewrite ?size_chain //; first exact: gen_diffE.
  exact: nth_chain0.
by move=> i; rewrite lt_pred_succ => lt_im; rewrite nth_chainS.
Qed.

(** X18. The unit interval is invariant: a path that starts in [0,1] stays
    in [0,1]; a path that starts outside is negative from position 1 on. *)
Theorem gen_diff_unit_interval (x_0 : R) (T : int) :
  1 <= T ->
  exists2 x, gen_diff x_0 T = Ok x &
    if 0 <= x_0 <= 1 then all (fun v => 0 <= v <= 1) x
    else all (fun v => v < 0) (behead x).
Proof.
case/int_ge1 => m ->; exists (chain logistic m 0 x_0); first exact: gen_diffE.
case: ifP => [x01|out]; first exact: all_chain_inv logistic_unit.
case: m => [|m] //=; apply: all_chain_inv; last exact: logistic_escape.
move/negbT: out; rewrite negb_and -!ltNge => /orP[] out.
  exact: logistic_escape.
rewrite /logistic -mulrA pmulr_rlt0 ?ltr0n // pmulr_rlt0 ?subr_lt0 //.
exact: lt_trans out.
Qed.

(** X19. The constant paths over exact arithmetic: for [T >= 2] and a
    finite number [x_0], [gen_diff] returns [x_0] at every position if and
    only if [x_0] is one of the two fixed points, 0 and 3/4. *)
Theorem gen_diff_constant_iff (x_0 : R) (T : int) :
  2%:R <= T ->
  (gen_diff x_0 T = Ok (nseq `|T| x_0) <-> x_0 = 0 \/ x_0 = 3%:R / 4%:R).
Proof.
case: T => [[|[|m]]|] // _; rewrite gen_diffE; split=> [[eq_x]|fixed].
  have := congr1 (fun s => nth 0 s 0) eq_x; rewrite nth_chain0 /= => eq1.
  have : x_0 * (3%:R - 4%:R * x_0) = 0.
    rewrite -(subrr x_0) -{3}eq1 /logistic; ring.
  move/eqP; rewrite mulf_eq0 subr_eq0 => /orP[] /eqP; first by left.
  by move=> eq3; right; lra.
congr Ok; apply: chain_const => j; rewrite /logistic.
by case: fixed => ->; [rewrite mulr0 mul0r | field].
Qed.

(** X20. [gen_cython1] and [gen_cython] by their length argument: a [T]
    that a C [int] cannot hold raises [OverflowError], a negative [T]
    raises [ValueError], [T = 0] raises [IndexError] at the bounds-checked
    store of the initial value, and for every [T >= 1] that a C [int] can
    hold both return the path of [T] values that [gen_diff] returns: it
    starts at [x_0] and follows [x[i+1] = 4 x[i] (1 - x[i])]. *)
Theorem gen_cython_outcome (x_0 : R) (T : int) :
  [/\ (T < - (int_max%:Z + 1)) || (int_max%:Z < T) ->
      gen_cython1 x_0 T = Raise OverflowError /\
      gen_cython x_0 T = Raise OverflowError,
      - (int_max%:Z + 1) <= T < 0 ->
      gen_cython1 x_0 T = Raise ValueError /\
      gen_cython x_0 T = Raise ValueError,
      T = 0 ->
      gen_cython1 x_0 T = Raise IndexError /\
      gen_cython x_0 T = Raise IndexError
    & 1 <= T <= int_max%:Z ->
      exists x,
        [/\ gen_cython1 x_0 T = Ok x, gen_cython x_0 T = Ok x,
            gen_diff x_0 T = Ok x, (size x)%:Z = T /\ nth 0 x 0 = x_0
          & forall i : nat, i%:Z < T - 1 ->
              nth 0 x i.+1 = 4%:R * nth 0 x i * (1 - nth 0 x i)]].
Proof.
have int_ok (m : nat) : (m <= int_max)%N -> c_int m = Ok (Posz m).
  rewrite /c_int lez_nat => ->; rewrite andbT.
  by rewrite (@le_trans _ _ 0) // oppr_le0.
split=> [out|/andP[lo neg]|->|/andP[/int_ge1[m ->] le_m]].
- by rewrite /gen_cython1 /gen_cython /c_int leNgt [T <= _]leNgt -negb_or out.
- rewrite /gen_cython1 /gen_cython /c_int lo (le_trans (ltW neg)) //=.
  by case: T neg {lo}.
- by rewrite /gen_cython1 /gen_cython int_ok.
exists (chain logistic m 0 x_0).
have eq_diff : gen_diff x_0 m.+1 = Ok (chain logistic m 0 x_0).
  exact: gen_diffE.
split=> //.
- by rewrite /gen_cython1 int_ok // bind_Ok.
- by rewrite /gen_cython int_ok // bind_Ok.
- by rewrite size_chain nth_chain0.
by move=> i; rewrite lt_pred_succ => lt_im; rewrite nth_chainS.
Qed.

End SpeedTheory.

(** Runs over the rationals. *)
Lemma gen_diff_unit_interval_run :
  exists2 x, gen_diff zeros half 3 = Ok x &
    if 0 <= half <= 1 then all (fun v => 0 <= v <= 1) x
    else all (fun v => v < 0) (behead x).
Proof. exact: (@gen_diff_unit_interval _ zeros half 3 isT). Defined.

Lemma gen_diff_constant_iff_run :
  gen_diff zeros half 3 = Ok (nseq 3 half) <->
  half = 0 \/ half = 3%:R / 4%:R.
Proof. exact: (@gen_diff_constant_iff _ zeros half 3 isT). Defined.

(** *** The geometric sums *)

Section GeoSumTheory.

Variable R : rcfType.
Variable float_max : R.
Variable int_max : nat.

Local Notation overflow := (overflow float_max).
Local Notation float_add := (float_add float_max).
Local Notation float_pow := (float_pow float_max).
Local Notation c_pow := (c_pow float_max).
Local Notation geo_sum := (geo_sum float_max).
Local Notation geo_sum_cython := (geo_sum_cython float_max int_max).
Local Notation fits alpha i := (`|alpha ^+ i| <= float_max).

(** The loop of [geo_sum_cython]. *)
Local Notation c_sum alpha :=
  (foldl (fun sum i => float_add sum (c_pow alpha i))).

Lemma overflow_Fin (v : R) : `|v| <= float_max -> overflow v = Fin v.
Proof.
rewrite ler_norml /overflow => /andP[lo hi].
by rewrite ltNge hi /= ltNge lo.
Qed.

Lemma overflow_inf (v : R) : float_max < `|v| -> ~~ finite (overflow v).
Proof.
rewrite /overflow ltr_normr ltrNr => /orP[->|lt_v] //.
by case: ifP => // _; rewrite lt_v.
Qed.

Lemma c_pow_Fin (alpha : R) (i : nat) :
  fits alpha i -> c_pow alpha i = Fin (alpha ^+ i).
Proof. exact: overflow_Fin. Qed.

Lemma float_add_Fin (x y : R) :
  `|x + y| <= float_max -> float_add (Fin x) (Fin y) = Fin (x + y).
Proof. by rewrite /float_add /=; apply: overflow_Fin. Qed.

Lemma float_add_inf (s p : float R) :
  ~~ finite s || ~~ finite p -> ~~ finite (float_add s p).
Proof. by case: s p => [x| | |] [y| | |]. Qed.

(** Once it is not a number the sum never is one again. *)
Lemma c_sum_inf (alpha : R) (s : float R) (r : seq nat) :
  ~~ finite s || has (fun i => ~~ fits alpha i) r ->
  ~~ finite (c_sum alpha s r).
Proof.
elim: r s => [|i r IH] s /=; first by rewrite orbF.
rewrite orbA => inf; apply: IH; case/orP: inf => [inf|->]; last exact: orbT.
rewrite float_add_inf //; case/orP: inf => [->//|]; rewrite -ltNge.
by move/overflow_inf->; rewrite orbT.
Qed.

(** The loop of [geo_sum]: it leaves at the first power that is too large,
    and otherwise adds what the loop of [geo_sum_cython] adds. *)
Lemma for_in_geo_sum (alpha : R) (s : float R) (r : seq nat) :
  for_in (geo_sum_body float_max alpha) r s =
  if all (fun i => fits alpha i) r then Ok (c_sum alpha s r)
  else Raise OverflowError.
Proof.
elim: r s => [|i r IH] s //=; rewrite /geo_sum_body /float_pow.
by case: ifP => //= ok; rewrite IH c_pow_Fin.
Qed.

(** The sums of numbers that stay in range. *)
Lemma c_sum_Fin (alpha : R) (a m : nat) :
  all (fun i => fits alpha i) (iota a m) ->
  (forall j, (j <= a + m)%N -> `|\sum_(i < j) alpha ^+ i| <= float_max) ->
  c_sum alpha (Fin (\sum_(i < a) alpha ^+ i)) (iota a m) =
  Fin (\sum_(i < a + m) alpha ^+ i).
Proof.
elim: m a => [|m IH] a /=; first by rewrite addn0.
case/andP=> ok_a ok_r sums.
have eqS : \sum_(i < a) alpha ^+ i + alpha ^+ a = \sum_(i < a.+1) alpha ^+ i.
  by rewrite big_ord_recr.
have le_S : `|\sum_(i < a.+1) alpha ^+ i| <= float_max.
  by apply: sums; rewrite addnS ltnS leq_addr.
have sums' j : (j <= a.+1 + m)%N -> `|\sum_(i < j) alpha ^+ i| <= float_max.
  by rewrite addSnnS; apply: sums.
by rewrite c_pow_Fin // float_add_Fin eqS // (IH _ ok_r sums') addSnnS.
Qed.

Lemma sum_pow_le (alpha : R) (j : nat) :
  `|alpha| <= 1 -> `|\sum_(i < j) alpha ^+ i| <= j%:R.
Proof.
move=> le1; apply: le_trans (ler_norm_sum _ _ _) _.
rewrite -[j in j%:R]card_ord -sumr_const; apply: ler_sum => i _.
by rewrite normrX exprn_ile1.
Qed.

Lemma sum_pow_formula (alpha : R) (m : nat) :
  (1 - alpha) * (\sum_(i < m) alpha ^+ i) = 1 - alpha ^+ m.
Proof. by rewrite -[RHS]opprB subrX1 -mulNr opprB. Qed.

(** X21. Over exact arithmetic, without rounding: for [alpha] between -1
    and 1 and an [n] that a float can hold, [geo_sum] returns the geometric
    sum of the [n] powers 0 to [n - 1]: 0 for [n <= 0],
    [(1 - alpha^n) / (1 - alpha)] for [n >= 0] and [alpha] other than 1,
    and [n] for [alpha = 1]. *)
Theorem geo_sum_closed_form (alpha : R) (n : int) :
  `|alpha| <= 1 -> 1 <= float_max -> n%:~R <= float_max ->
  exists2 s : R, geo_sum alpha n = Ok (Fin s) &
    [/\ n <= 0 -> s = 0,
        0 <= n -> alpha != 1 -> s = (1 - alpha ^+ `|n|) / (1 - alpha)
      & 0 <= n -> alpha = 1 -> s = n%:~R].
Proof.
move=> le1 M1; case: n => [m|m] le_n; last by exists 0.
exists (\sum_(i < m) alpha ^+ i); last split.
- have ok : all (fun i => fits alpha i) (iota 0 m).
    apply/allP=> i _; apply: le_trans M1.
    by rewrite normrX exprn_ile1.
  rewrite /geo_sum for_in_geo_sum /= ok.
  have -> : Fin (0 : R) = Fin (\sum_(i < 0) alpha ^+ i) by rewrite big_ord0.
  rewrite c_sum_Fin // => j le_j; apply: le_trans (sum_pow_le j le1) _.
  by apply: le_trans le_n; rewrite ler_nat.
- by case: m {le_n} => // _; rewrite big_ord0.
- move=> _ ne1; rewrite /= -sum_pow_formula [X in X / _]mulrC mulfK //.
  by rewrite subr_eq0 eq_sym.
- move=> _ ->; under eq_bigr do rewrite expr1n.
  by rewrite sumr_const card_ord.
Qed.

(** X22. [geo_sum] raises [OverflowError] exactly when one of the powers
    [alpha**i], [i < n], is too large for a float, and returns a float
    otherwise; for [alpha] between -1 and 1 it always returns. *)
Theorem geo_sum_OverflowError_iff (alpha : R) (n : int) :
  [/\ geo_sum alpha n = Raise OverflowError <->
      exists2 i : nat, i%:Z < n & float_max < `|alpha ^+ i|,
      geo_sum alpha n = Raise OverflowError \/ returned (geo_sum alpha n)
    & `|alpha| <= 1 -> 1 <= float_max -> returned (geo_sum alpha n)].
Proof.
rewrite /geo_sum for_in_geo_sum; split.
- split=> [|[i lt_i big]].
    case ok: (all _ _) => // _; move/negbT/allPn: ok => [i in_r].
    rewrite -ltNge => big; exists i => //.
    by case: n in_r => // m; rewrite mem_iota add0n.
  case: allP => // /(_ i); rewrite leNgt big; case: n lt_i => // m lt_i.
  by rewrite /= mem_iota add0n => /(_ lt_i).
- by case: ifP; [right | left].
move=> le1 M1; case: allP => // -[] i _; apply: le_trans M1.
by rewrite normrX exprn_ile1.
Qed.

(** X23. [geo_sum_cython] never raises [OverflowError] for its powers: for
    an [n] that a C [int] holds it returns what [geo_sum] returns where
    [geo_sum] returns, and where [geo_sum] raises [OverflowError] it
    returns an infinity or [nan]; an [n] that a C [int] cannot hold raises
    [OverflowError] at the call. *)
Theorem geo_sum_cython_outcome (alpha : R) (n : int) :
  [/\ (n < - (int_max%:Z + 1)) || (int_max%:Z < n) ->
      geo_sum_cython alpha n = Raise OverflowError,
      - (int_max%:Z + 1) <= n <= int_max%:Z ->
      forall s, geo_sum alpha n = Ok s -> geo_sum_cython alpha n = Ok s
    & - (int_max%:Z + 1) <= n <= int_max%:Z ->
      geo_sum alpha n = Raise OverflowError ->
      exists2 s, geo_sum_cython alpha n = Ok s & ~~ finite s].
Proof.
rewrite /geo_sum_cython /c_int /geo_sum for_in_geo_sum.
split=> [out|-> s|->].
- by rewrite leNgt [n <= _]leNgt -negb_or out.
- by case: ifP.
case ok: (all _ _) => // _; have /allPn[i in_r not_ok] := negbT ok.
eexists; first by [].
by apply: c_sum_inf; apply/orP; right; apply/hasP; exists i.
Qed.

End GeoSumTheory.

(** Runs on real algebraic numbers, with 100 for the largest float. *)
Lemma halves_le1 : `|halves 0| <= 1.
Proof.
by rewrite /halves ger0_norm ?invr_ge0 ?ler0n // invf_le1 ?ltr0n // ler1n.
Qed.

Lemma float_max100_ge1 : 1 <= float_max100.
Proof. by rewrite /float_max100 ler1n. Qed.

Lemma geo_sum_closed_form_run :
  exists2 s : algR, geo_sum float_max100 (halves 0) 3 = Ok (Fin s) &
    [/\ (3 : int) <= 0 -> s = 0,
        (0 : int) <= 3 -> halves 0 != 1 ->
        s = (1 - halves 0 ^+ 3) / (1 - halves 0)
      & (0 : int) <= 3 -> halves 0 = 1 -> s = 3%:~R].
Proof.
apply: (@geo_sum_closed_form algR float_max100 (halves 0) 3 halves_le1
          float_max100_ge1).
by rewrite /float_max100 ler_nat.
Defined.

(** With 20 for [alpha] the third power is too large. *)
Lemma geo_sum_20 :
  geo_sum float_max100 (20%:R : algR) 3 = Raise OverflowError.
Proof.
rewrite /geo_sum for_in_geo_sum; case: allP => // /(_ 2%N isT).
by rewrite normrX normr_nat -natrX /float_max100 ler_nat.
Qed.

Lemma geo_sum_OverflowError_iff_run :
  geo_sum float_max100 (20%:R : algR) 3 = Raise OverflowError.
Proof.
have [[_ raise] _ _] :=
  geo_sum_OverflowError_iff float_max100 (20%:R : algR) 3.
apply: raise; exists 2%N => //.
by rewrite normrX normr_nat -natrX /float_max100 ltr_nat.
Defined.

Lemma geo_sum_cython_outcome_run :
  exists2 s, geo_sum_cython float_max100 int_max16 (20%:R : algR) 3 = Ok s &
             ~~ finite s.
Proof.
have [_ _ inf] :=
  geo_sum_cython_outcome float_max100 int_max16 (20%:R : algR) 3.
exact: inf isT geo_sum_20.
Defined.

Section CachingTheory.

Variable R : rcfType.
Variable junk : nat -> R.

Lemma np_mean_share (b : seq bool) :
  b != [::] ->
  exists2 share : R, Caching.np_mean R b = Fin share &
    share = (count id b)%:R / (size b)%:R /\ 0 <= share <= 1.
Proof.
move=> b0; have sz : (0 < size b)%N by case: b b0.
exists ((count id b)%:R / (size b)%:R); last first.
  split=> //; rewrite divr_ge0 ?ler0n // ler_pdivrMr ?ltr0n // mul1r.
  by rewrite ler_nat count_size.
by rewrite /Caching.np_mean /fdiv pnatr_eq0 -lt0n sz.
Qed.

(** X24. The cached [gen_diff] by its argument [n]: [n < -1] raises
    [ValueError], [n = -1] raises [IndexError], and every [n >= 0] returns
    the share of the values below 0.1 on the path that [gen_diff(x0, n + 1)]
    of the first cell returns, a number between 0 and 1. *)
Theorem cached_gen_diff_outcome (x0 : R) (n : int) :
  [/\ n < -1 -> Caching.gen_diff junk x0 n = Raise ValueError,
      n = -1 -> Caching.gen_diff junk x0 n = Raise IndexError
    & 0 <= n ->
      exists (x : seq R) (share : R),
        [/\ gen_diff junk x0 (n + 1) = Ok x,
            Caching.gen_diff junk x0 n = Ok (Fin share),
            share = (count (fun v => v < 1 / 10%:R) x)%:R / (n + 1)%:~R
          & 0 <= share <= 1]].
Proof.
split; first by case: n => [m|[|m]].
  by move=> ->.
case: n => // m _; rewrite -PoszD addn1.
have run := gen_diffE junk x0 m; set x := chain _ _ _ _ in run; exists x.
have: Caching.gen_diff junk x0 m =
      Ok (Caching.np_mean R [seq v < 1 / 10%:R | v <- x]).
  move: run; rewrite /Caching.gen_diff /gen_diff (range_pred m) /=.
  by rewrite addn1 /= => ->.
set b := map _ _; have [|share -> [-> bounds] ->] := np_mean_share (b := b).
  by rewrite -size_eq0 size_map size_chain.
exists ((count id b)%:R / (size b)%:R); split=> //.
by rewrite count_map size_map size_chain.
Qed.

End CachingTheory.

Section GridSearchTheory.

Variable R : rcfType.
Variable np_cos : R -> R.

Local Notation f := (GridSearch.f np_cos).
Local Notation loop := (GridSearch.loop np_cos).
Local Notation vectorized := (GridSearch.vectorized np_cos).

(** The largest element of a list that starts with [v]. *)
Lemma foldl_maxP (v : R) (zs : seq R) :
  foldl Num.max v zs \in v :: zs /\
  all (fun z => z <= foldl Num.max v zs) (v :: zs).
Proof.
elim: zs v => [|z zs IH] v /=; first by rewrite mem_head lexx.
have [in_max /= /andP[le_max le_all]] := IH (Num.max v z).
have [le_v le_z] : v <= foldl Num.max (Num.max v z) zs /\
                   z <= foldl Num.max (Num.max v z) zs.
  by split; apply: le_trans le_max; rewrite le_max ?lexx ?orbT.
rewrite le_v le_z le_all; split=> //.
move: in_max; rewrite !inE => /orP[/eqP->|->]; last by rewrite !orbT.
by rewrite /Num.max; case: ifP => _; rewrite eqxx ?orbT.
Qed.

(** The running maximum of the loops, once it holds a number. *)
Lemma running_max (v : R) (zs : seq R) :
  foldl (fun m z => if GridSearch.gt z m then Fin z else m) (Fin v) zs =
  Fin (foldl Num.max v zs).
Proof.
elim: zs v => [|z zs IH] v //=.
by rewrite {2}/Num.max; case: ifP => _; rewrite IH.
Qed.

(** The two loops visit the values of [f] on all pairs of grid points. *)
Lemma loop_allpairs (step : float R -> R -> float R) (m : float R)
    (xs ys : seq R) :
  foldl (fun m x => foldl (fun m y => step m (f x y)) m ys) m xs =
  foldl step m [seq f x y | x <- xs, y <- ys].
Proof.
have row x m' : foldl (fun m y => step m (f x y)) m' ys =
                foldl step m' [seq f x y | y <- ys].
  by elim: ys m' => [|y ys IHy] m' //=.
by elim: xs m => [|x xs IH] m //=; rewrite foldl_cat -IH row.
Qed.

Lemma loopE (x : R) (grid : seq R) :
  exists2 zs, [seq f a b | a <- x :: grid, b <- x :: grid] = f x x :: zs &
    loop (x :: grid) = Fin (foldl Num.max (f x x) zs).
Proof.
exists ([seq f x b | b <- grid] ++ [seq f a b | a <- grid, b <- x :: grid]).
  by [].
rewrite /GridSearch.loop.
rewrite (loop_allpairs (fun m z => if GridSearch.gt z m then Fin z else m)).
by rewrite /= running_max.
Qed.

Lemma vectorizedE (x : R) (grid : seq R) :
  vectorized (x :: grid) =
  Ok (foldl Num.max (f x x) [seq f a a | a <- grid]).
Proof.
rewrite /GridSearch.vectorized /GridSearch.np_vectorize /= eqxx /=.
by congr (Ok (foldl _ _ _)); elim: grid => [|a grid /= ->].
Qed.

(** X25. The two loops leave [-inf] for an empty grid; for any other grid
    they leave a value of [f] at a pair of grid points that no value of [f]
    at a pair of grid points exceeds. *)
Theorem loop_is_max (grid : seq R) :
  if grid is [::] then loop grid = NInf
  else exists m : R,
    [/\ loop grid = Fin m,
        exists x y, [/\ x \in grid, y \in grid & m = f x y]
      & forall x y, x \in grid -> y \in grid -> f x y <= m].
Proof.
case: grid => [|x0 grid] //; have [zs eq_zs ->] := loopE x0 grid.
have [in_max /allP le_max] := foldl_maxP (f x0 x0) zs.
exists (foldl Num.max (f x0 x0) zs); split=> //.
  by move: in_max; rewrite -eq_zs => /allpairsP[[x y] /= [? ? ->]]; exists x, y.
by move=> x y x_in y_in; apply: le_max; rewrite -eq_zs; apply: allpairs_f.
Qed.

(** X26. The vectorised cell raises [ValueError] for an empty grid; for any
    other grid it returns the largest value of [f] on the diagonal, at the
    pairs [(x, x)] of a grid point with itself, which is at most what the two
    loops leave and equal to it exactly when the loops' maximum is taken on
    the diagonal. *)
Theorem vectorized_is_diagonal_max (grid : seq R) :
  if grid is [::] then vectorized grid = Raise ValueError
  else exists d m : R,
    [/\ vectorized grid = Ok d, loop grid = Fin m,
        (exists2 x, x \in grid & d = f x x) /\
        (forall x, x \in grid -> f x x <= d),
        d <= m
      & d = m <-> exists2 x, x \in grid & m = f x x].
Proof.
case: grid => [|x0 grid] //; have [zs eq_zs loop_m] := loopE x0 grid.
rewrite vectorizedE loop_m.
set ds := [seq f a a | a <- grid].
have [in_d /allP le_d] := foldl_maxP (f x0 x0) ds.
have [in_m /allP le_m] := foldl_maxP (f x0 x0) zs.
have diag : f x0 x0 :: ds = [seq f a a | a <- x0 :: grid] by [].
exists (foldl Num.max (f x0 x0) ds), (foldl Num.max (f x0 x0) zs).
have on_diag : exists2 x, x \in x0 :: grid & foldl Num.max (f x0 x0) ds = f x x.
  by move: in_d; rewrite diag => /mapP[x x_in ->]; exists x.
have le_dm : foldl Num.max (f x0 x0) ds <= foldl Num.max (f x0 x0) zs.
  have [x x_in ->] := on_diag.
  by apply: le_m; rewrite -eq_zs; apply: allpairs_f.
have le_diag x : x \in x0 :: grid -> f x x <= foldl Num.max (f x0 x0) ds.
  by move=> x_in; apply: le_d; rewrite diag; apply/mapP; exists x.
split=> //.
split=> [<- //|[x x_in eq_m]]; apply/eqP; rewrite eq_le le_dm /= eq_m.
exact: le_diag.
Qed.

End GridSearchTheory.
